(** * involta-test: the TTL cache and the parallel item processor

    A shallow embedding of the Go packages [model], [cache], [storage] and
    [service], followed by the properties proved about them.

    Conventions.
    - Go's [int] is the 64-bit two's-complement integer of the targets the
      Dockerfile builds for; it is a [Z] together with [GoInt.wrap].
    - [time.Time] is a reading of the monotonic clock in nanoseconds, a [Z];
      [time.Duration] is a [Z] as well.
    - A Go map is a [gmap]; the order in which [range] walks it is supplied
      by the class [MapRange], one seed per loop.
    - [sort.Slice] belongs to the Go standard library; it is represented by
      what its documentation promises, the class [SortSlice]. *)

From Stdlib Require Import ZArith List Bool Lia Permutation Sorted.
From stdpp Require Import gmap strings list fin_maps sorting.

Local Open Scope Z_scope.

(* ===================================================================== *)
(** * Go's [int]                                                          *)
(* ===================================================================== *)

Module GoInt.

Definition minInt : Z := - 2 ^ 63.
Definition maxInt : Z := 2 ^ 63 - 1.

Definition inRange (z : Z) : Prop := minInt <= z <= maxInt.

(** Reduction of a mathematical integer to the value an [int] holds. *)
Definition wrap (z : Z) : Z := (z + 2 ^ 63) mod 2 ^ 64 - 2 ^ 63.

Definition sub (a b : Z) : Z := wrap (a - b).
Definition mul (a b : Z) : Z := wrap (a * b).

End GoInt.

(* ===================================================================== *)
(** * Go's [time]                                                         *)
(* ===================================================================== *)

Module time.

Definition Time := Z.
Definition Duration := Z.

(** [t.After(u)]: strictly later. *)
Definition After (t u : Time) : bool := u <? t.

(** [t.Add(d)]. *)
Definition Add (t : Time) (d : Duration) : Time := t + d.

End time.

(* ===================================================================== *)
(** * Package [model] (internal/model/document.go)                        *)
(* ===================================================================== *)

Module model.

Record SecondLevelItem := mkSecondLevelItem {
  sl_ID : string;
  sl_Type : string;
  sl_Content : string;
  sl_Status : string;
  sl_PrivateInfo : string
}.

Record FirstLevelItem := mkFirstLevelItem {
  item_ID : string;
  Name : string;
  Sort : Z;
  Value : string;
  SecondLevel : list SecondLevelItem;
  MetaData : string
}.

(** A [Document] whose [Items] field has representation [S]: a slice
    header when the document lives in the heap, the slice's contents when
    only values matter. *)
Record Document (S : Type) := mkDocument {
  ID : string;
  Title : string;
  Description : string;
  CreatedAt : time.Time;
  UpdatedAt : time.Time;
  Items : S;
  Internal : string
}.

Arguments mkDocument {S}.
Arguments ID {S}.
Arguments Title {S}.
Arguments Description {S}.
Arguments CreatedAt {S}.
Arguments UpdatedAt {S}.
Arguments Items {S}.
Arguments Internal {S}.

Definition set_Title {S} (d : Document S) (v : string) : Document S :=
  mkDocument (ID d) v (Description d) (CreatedAt d) (UpdatedAt d) (Items d) (Internal d).

Definition set_Description {S} (d : Document S) (v : string) : Document S :=
  mkDocument (ID d) (Title d) v (CreatedAt d) (UpdatedAt d) (Items d) (Internal d).

Definition set_UpdatedAt {S} (d : Document S) (v : time.Time) : Document S :=
  mkDocument (ID d) (Title d) (Description d) (CreatedAt d) v (Items d) (Internal d).

Definition set_Items {S T} (d : Document S) (v : T) : Document T :=
  mkDocument (ID d) (Title d) (Description d) (CreatedAt d) (UpdatedAt d) v (Internal d).

(** The contents of a slice of items: [None] is the nil slice. *)
Definition ItemSeq := option (list FirstLevelItem).

(** [len(s)]; the nil slice has length 0. *)
Definition elems (s : ItemSeq) : list FirstLevelItem := default [] s.

Record UpdateDocumentRequest := mkUpdateDocumentRequest {
  req_Title : option string;
  req_Description : option string;
  req_Items : option ItemSeq
}.

Record CreateDocumentRequest := mkCreateDocumentRequest {
  creq_Title : string;
  creq_Description : string;
  creq_Items : ItemSeq
}.

Record DocumentList := mkDocumentList {
  Documents : list (Document ItemSeq);
  Total : Z;
  dl_Page : Z;
  dl_PerPage : Z;
  TotalPages : Z
}.

Record PaginationParams := mkPaginationParams {
  Page : Z;
  PerPage : Z
}.

(** [func (p *PaginationParams) Validate()]: the receiver is updated in
    place, here returned. *)
Definition Validate (p : PaginationParams) : PaginationParams :=
  let p := if Page p <? 1 then mkPaginationParams 1 (PerPage p) else p in
  let p := if PerPage p <? 1 then mkPaginationParams (Page p) 10 else p in
  let p := if 100 <? PerPage p then mkPaginationParams (Page p) 100 else p in
  p.

(** [func (p *PaginationParams) GetOffset() int]. *)
Definition GetOffset (p : PaginationParams) : Z :=
  GoInt.mul (GoInt.sub (Page p) 1) (PerPage p).

End model.

(* ===================================================================== *)
(** * Package [storage]: the query built by [Storage.List]                *)
(* ===================================================================== *)

Module storage.

(** The part of the Reindexer query that depends on the pagination:
    [Limit(params.PerPage).Offset(params.GetOffset())]. *)
Record ListQuery := mkListQuery {
  Limit : Z;
  Offset : Z
}.

Definition List_query (params : model.PaginationParams) : ListQuery :=
  mkListQuery (model.PerPage params) (model.GetOffset params).

End storage.

(* ===================================================================== *)
(** * The Go runtime and standard library, as far as the code uses them   *)
(* ===================================================================== *)

(** [for key, item := range m]: the language leaves the order of the walk
    open, and it differs from one loop to the next. A loop is given a seed
    and walks the entries in the order [range seed m], some arrangement of
    the entries of [m]. *)
Class MapRange := {
  range : ∀ {V : Type}, nat → gmap string V → list (string * V);
  range_perm : ∀ (V : Type) (seed : nat) (m : gmap string V),
    range seed m ≡ₚ map_to_list m
}.

(** The requirement [sort.Slice] puts on its [less] argument: a strict weak
    ordering. *)
Record StrictWeak {A : Type} (less : A → A → bool) : Prop := {
  less_asym : ∀ a b, less a b = true → less b a = false;
  less_negtrans : ∀ a b c, less a b = false → less b c = false → less a c = false
}.

(** [sort.Slice(x, less)]: afterwards [x] holds the same elements, and no
    element is [less] than one standing before it. The documentation adds:
    "The sort is not guaranteed to be stable", so nothing is said about the
    order of elements neither of which is [less] than the other. *)
Class SortSlice := {
  sort_Slice : ∀ {A : Type}, (A → A → bool) → list A → list A;
  sort_Slice_perm : ∀ (A : Type) (less : A → A → bool) (x : list A),
    sort_Slice less x ≡ₚ x;
  sort_Slice_sorted : ∀ (A : Type) (less : A → A → bool) (x : list A),
    StrictWeak less →
    StronglySorted (λ a b, less b a = false) (sort_Slice less x)
}.

(** Errors the service returns. *)
Inductive error :=
| ctxErr
    (* the value of [ctx.Err()] once the context is done *)
| storageErr (msg : string)
    (* an error reported by the document store *)
| wrapErr (context : string) (cause : error)
    (* [fmt.Errorf("<context>: %w", cause)] *)
| incompleteErr (expected got : nat).
    (* [fmt.Errorf("processing incomplete: expected %d documents, got %d", ..)] *)

(* ===================================================================== *)
(** * Package [cache] (internal/cache)                                    *)
(* ===================================================================== *)

Module cache.

(** A [*model.Document]: [None] is the nil pointer. *)
Definition DocPtr := option nat.

Record cacheItem := mkCacheItem {
  document : DocPtr;
  expiresAt : time.Time
}.

(** The fields [mu] and [stopCleanup] have no counterpart: every function
    below is one critical section of the lock, or a sequence of them. *)
Record Cache := mkCache {
  items : gmap string cacheItem;
  ttl : time.Duration;
  capacity : Z;
  cleanupInterval : time.Duration
}.

Definition set_items (c : Cache) (m : gmap string cacheItem) : Cache :=
  mkCache m (ttl c) (capacity c) (cleanupInterval c).

(** [New], without the goroutine it starts. *)
Definition New (ttl cleanupInterval : time.Duration) (capacity : Z) : Cache :=
  mkCache ∅ ttl capacity cleanupInterval.

(** [len(c.items)] *)
Definition len_items (c : Cache) : Z := Z.of_nat (size (items c)).

(** What the first critical section of [Get] (under [RLock]) and the test
    that follows it decide. *)
Inductive Lookup :=
| Absent
| Expired
| Live (doc : DocPtr).

Definition Get_read (now : time.Time) (id : string) (c : Cache) : Lookup :=
  match items c !! id with
  | None => Absent
  | Some item =>
      if time.After now (expiresAt item) then Expired else Live (document item)
  end.

(** The second critical section of [Get] (under [Lock]). *)
Definition Get_evict (now : time.Time) (id : string) (c : Cache) : Cache :=
  match items c !! id with
  | Some item =>
      if time.After now (expiresAt item)
      then set_items c (delete id (items c))
      else c
  | None => c
  end.

(** [Get], run without interference; [now1] and [now2] are the two readings
    of the clock it takes. *)
Definition Get (now1 now2 : time.Time) (id : string) (c : Cache)
  : (DocPtr * bool) * Cache :=
  match Get_read now1 id c with
  | Absent => ((None, false), c)
  | Expired => ((None, false), Get_evict now2 id c)
  | Live doc => ((doc, true), c)
  end.

(** [evictRandom]: the first key the walk meets is deleted. *)
Definition evictRandom `{MapRange} (seed : nat) (c : Cache) : Cache :=
  match range seed (items c) with
  | (key, _) :: _ => set_items c (delete key (items c))
  | [] => c
  end.

(** [Set]; the name is reserved in Rocq, hence the underscore. *)
Definition Set_ `{MapRange} (seed : nat) (now : time.Time) (id : string)
    (doc : DocPtr) (c : Cache) : Cache :=
  let c :=
    if bool_decide (items c !! id = None)
       && (0 <? capacity c) && (capacity c <=? len_items c)
    then evictRandom seed c
    else c in
  set_items c (<[id := mkCacheItem doc (time.Add now (ttl c))]> (items c)).

Definition Delete (id : string) (c : Cache) : Cache :=
  set_items c (delete id (items c)).

Definition Clear (c : Cache) : Cache := set_items c ∅.

Definition Size (c : Cache) : Z := len_items c.

(** The first pass of [cleanup] (under [RLock]). *)
Definition cleanup_collect `{MapRange} (seed : nat) (now : time.Time)
    (c : Cache) : list string :=
  foldl (λ keysToDelete kv,
           if time.After now (expiresAt kv.2)
           then keysToDelete ++ [kv.1]
           else keysToDelete)
        [] (range seed (items c)).

(** The second pass of [cleanup] (under [Lock]). *)
Definition cleanup_sweep (now : time.Time) (keysToDelete : list string)
    (c : Cache) : Cache :=
  if (0 <? length keysToDelete)%nat
  then foldl (λ c key, Get_evict now key c) c keysToDelete
  else c.

(** [cleanup], run without interference. *)
Definition cleanup `{MapRange} (seed : nat) (now : time.Time) (c : Cache)
  : Cache :=
  cleanup_sweep now (cleanup_collect seed now c) c.

(** The critical sections that write the map. Goroutines using the cache
    concurrently execute some sequence of them. *)
Inductive Op :=
| OpSet (seed : nat) (now : time.Time) (id : string) (doc : DocPtr)
| OpDelete (id : string)
| OpClear
| OpGetEvict (now : time.Time) (id : string)
| OpSweep (now : time.Time) (keysToDelete : list string).

Definition apply `{MapRange} (c : Cache) (op : Op) : Cache :=
  match op with
  | OpSet seed now id doc => Set_ seed now id doc c
  | OpDelete id => Delete id c
  | OpClear => Clear c
  | OpGetEvict now id => Get_evict now id c
  | OpSweep now keys => cleanup_sweep now keys c
  end.

Definition run `{MapRange} (ops : list Op) (c : Cache) : Cache :=
  foldl apply c ops.

(** What wakes the goroutine of [startCleanup]: a tick of its ticker, at
    which [cleanup] reads the clock, or the closing of [stopCleanup]. *)
Inductive Wakeup :=
| Tick (seed : nat) (now : time.Time)
| Stopped.

(** The loop of [startCleanup], run without interference, under the
    wakeups it gets; it returns at the first [Stopped]. *)
Fixpoint startCleanup_loop `{MapRange} (wakeups : list Wakeup) (c : Cache)
  : Cache :=
  match wakeups with
  | [] => c
  | Tick seed now :: rest => startCleanup_loop rest (cleanup seed now c)
  | Stopped :: _ => c
  end.

(** [startCleanup]: [time.NewTicker] panics ([None]) when [cleanupInterval]
    is not positive; otherwise the loop runs. *)
Definition startCleanup `{MapRange} (wakeups : list Wakeup) (c : Cache)
  : option Cache :=
  if bool_decide (cleanupInterval c <= 0) then None
  else Some (startCleanup_loop wakeups c).

End cache.

(* ===================================================================== *)
(** * Package [service] (internal/service/service.go)                     *)
(* ===================================================================== *)

Module service.

Import model.

(** A document as a value: its [Items] field is the contents of the slice. *)
Abbreviation Doc := (Document ItemSeq).

(** The closure handed to [sort.Slice]:
    [processed.Items[i].Sort > processed.Items[j].Sort]. *)
Definition less (a b : FirstLevelItem) : bool := Sort a >? Sort b.

(** ** [processDocument] on values *)

Definition processDocument `{SortSlice} (doc : Doc) : Doc :=
  let processed := doc in
  let processed :=
    match Items doc with
    | Some src => set_Items processed (Some src)   (* make, then copy *)
    | None => processed
    end in
  match Items processed with
  | Some x => set_Items processed (Some (sort_Slice less x))
  | None => processed                               (* nothing to sort *)
  end.

(** ** [processDocument] on the heap

    Slices are headers pointing into arrays, documents are reached through
    pointers; this is the level at which sharing and mutation show. *)

Abbreviation loc := nat.

Record sliceHdr := mkSlice {
  arr : loc;
  off : nat;
  len : nat
}.

(** A [[]FirstLevelItem]: [None] is nil. *)
Abbreviation slice := (option sliceHdr).

Record Heap := mkHeap {
  arrays : gmap loc (list FirstLevelItem);
  docs : gmap loc (Document slice)
}.

Definition zeroItem : FirstLevelItem :=
  mkFirstLevelItem EmptyString EmptyString 0 EmptyString [] EmptyString.

(** The elements a slice shows. *)
Definition load (h : Heap) (s : slice) : list FirstLevelItem :=
  match s with
  | None => []
  | Some hd => take (len hd) (drop (off hd) (default [] (arrays h !! arr hd)))
  end.

(** Overwrite the first [length v] elements a slice shows. *)
Definition store (h : Heap) (s : slice) (v : list FirstLevelItem) : Heap :=
  match s with
  | None => h
  | Some hd =>
      match arrays h !! arr hd with
      | None => h
      | Some a =>
          mkHeap (<[arr hd := take (off hd) a ++ v
                              ++ drop (off hd + length v) a]> (arrays h))
                 (docs h)
      end
  end.

(** [make([]model.FirstLevelItem, n)] *)
Definition make (h : Heap) (n : nat) : Heap * slice :=
  let a := fresh (dom (arrays h)) in
  (mkHeap (<[a := replicate n zeroItem]> (arrays h)) (docs h),
   Some (mkSlice a 0 n)).

Definition slice_len (s : slice) : nat :=
  match s with None => 0 | Some hd => len hd end.

(** [copy(dst, src)] *)
Definition copy (h : Heap) (dst src : slice) : Heap :=
  store h dst (take (slice_len dst `min` slice_len src) (load h src)).

(** [sort.Slice(s, less)], which rearranges the elements of [s] in place. *)
Definition sort_Slice_at `{SortSlice} (h : Heap) (s : slice) : Heap :=
  store h s (sort_Slice less (load h s)).

(** [processDocument(doc)]; [None] is the panic on a nil or dangling
    [doc]. *)
Definition processDocumentH `{SortSlice} (h : Heap) (doc : loc)
  : option (Heap * loc) :=
  d ← docs h !! doc;
  let processed := d in
  let '(h, processed) :=
    match Items d with
    | Some hd =>
        let '(h, s) := make h (len hd) in
        let h := copy h s (Items d) in
        (h, set_Items processed s)
    | None => (h, processed)
    end in
  let h := sort_Slice_at h (Items processed) in
  let p := fresh (dom (docs h)) in
  Some (mkHeap (arrays h) (<[p := processed]> (docs h)), p).

(** What a heap document looks like as a value. *)
Definition view (h : Heap) (d : Document slice) : Doc :=
  set_Items d (match Items d with
               | None => None
               | Some _ => Some (load h (Items d))
               end).

(** A slice header that points inside an allocated array. *)
Definition valid_slice (h : Heap) (s : slice) : Prop :=
  match s with
  | None => True
  | Some hd => ∃ a, arrays h !! arr hd = Some a ∧ (off hd + len hd ≤ length a)%nat
  end.

(** ** [processDocumentsParallel]

    The goroutines of one call, interleaved. The main goroutine is at one
    of the places [Pc]; a started task is either about to run its [select]
    ([starting]) or at its deferred [<-sem] ([releasing]). An [Event] says
    who moves next; [step] makes the move, or is [None] when that move is
    blocked. *)

Inductive Result :=
| Ok (documents : list Doc)     (* [return documents, nil] *)
| Fail (err : error)            (* [return nil, err] *)
| Panic.                        (* dereference of a missing map entry *)

Inductive Pc :=
| Entry                         (* line 151 *)
| LoopHead (i : nat)            (* line 165, before iteration [i] *)
| Select (i : nat)              (* line 170 *)
| Spawn (i : nat)               (* line 177 *)
| Wait                          (* line 193 *)
| CheckCtx                         (* line 196 *)
| Returned (r : Result).

Record State := mkState {
  pc : Pc;
  done : bool;                          (* [ctx.Done()] is closed *)
  sem : nat;                            (* values in the channel [sem] *)
  starting : list (nat * Doc);          (* tasks before their [select] *)
  releasing : nat;                      (* tasks at [<-sem] *)
  results : list (nat * Doc)            (* contents of the channel [results] *)
}.

Inductive Event :=
| EvCancel                      (* the context is cancelled *)
| EvMain                        (* the main goroutine, where it has no choice *)
| EvSelectSem                   (* line 171: [sem <- struct{}{}] *)
| EvSelectDone                  (* line 173: [<-ctx.Done()] *)
| EvTask (k : nat)              (* the [k]-th starting task runs its [select] *)
| EvRelease.                    (* a task receives from [sem] and is done *)

Definition set_pc (s : State) (p : Pc) : State :=
  mkState p (done s) (sem s) (starting s) (releasing s) (results s).

(** Lines 196-214. *)
Definition collect (results : list (nat * Doc)) : gmap nat Doc :=
  foldl (λ processedMap r, <[r.1 := r.2]> processedMap) ∅ results.

Definition assemble (processedMap : gmap nat Doc) (n : nat) : option (list Doc) :=
  mapM (λ i, processedMap !! i) (seq 0 n).

Definition finish (done : bool) (results : list (nat * Doc)) (n : nat) : Result :=
  if done then Fail ctxErr
  else
    let processedMap := collect results in
    if bool_decide (size processedMap ≠ n)
    then Fail (incompleteErr n (size processedMap))
    else match assemble processedMap n with
         | Some processed => Ok processed
         | None => Panic
         end.

Section processDocumentsParallel.

Context `{SortSlice}.
Variable NumCPU : nat.          (* [runtime.NumCPU()], at least 1 *)
Variable documents : list Doc.

Definition step (ev : Event) (s : State) : option State :=
  match ev with
  | EvCancel =>
      match pc s with
      | Returned _ => None
      | _ => if done s then None
             else Some (mkState (pc s) true (sem s) (starting s)
                                (releasing s) (results s))
      end
  | EvMain =>
      match pc s with
      | Entry =>
          if bool_decide (length documents = 0%nat)
          then Some (set_pc s (Returned (Ok documents)))
          else Some (set_pc s (LoopHead 0))
      | LoopHead i =>
          match documents !! i with
          | None => Some (set_pc s Wait)
          | Some _ =>
              if done s then Some (set_pc s Wait)        (* [break] *)
              else Some (set_pc s (Select i))
          end
      | Spawn i =>
          match documents !! i with
          | Some doc =>
              Some (mkState (LoopHead (S i)) (done s) (sem s)
                            (starting s ++ [(i, doc)])
                            (releasing s) (results s))
          | None => None
          end
      | Wait =>
          match starting s, releasing s with
          | [], O => Some (set_pc s CheckCtx)
          | _, _ => None
          end
      | CheckCtx =>
          Some (set_pc s (Returned (finish (done s) (results s)
                                           (length documents))))
      | Select _ | Returned _ => None
      end
  | EvSelectSem =>
      match pc s with
      | Select i =>
          if (sem s <? NumCPU)%nat
          then Some (mkState (Spawn i) (done s) (S (sem s)) (starting s)
                             (releasing s) (results s))
          else None
      | _ => None
      end
  | EvSelectDone =>
      match pc s with
      | Select i =>
          (* [break] leaves the [select], not the loop *)
          if done s then Some (set_pc s (Spawn i)) else None
      | _ => None
      end
  | EvTask k =>
      match starting s !! k with
      | Some (idx, d) =>
          Some (mkState (pc s) (done s) (sem s) (delete k (starting s))
                        (S (releasing s))
                        (if done s then results s
                         else results s ++ [(idx, processDocument d)]))
      | None => None
      end
  | EvRelease =>
      match releasing s, sem s with
      | S r, S n =>
          Some (mkState (pc s) (done s) n (starting s) r (results s))
      | _, _ => None
      end
  end.

Fixpoint run (evs : list Event) (s : State) : option State :=
  match evs with
  | [] => Some s
  | ev :: evs => s' ← step ev s; run evs s'
  end.

(** The state in which the call begins; [cancelled] tells whether the
    context was done already. *)
Definition init (cancelled : bool) : State :=
  mkState Entry cancelled 0 [] 0 [].

(** The call, begun with the context done or not, under a schedule:
    what it returns, if the schedule can be followed and brings it to its
    return. *)
Definition processDocumentsParallel (cancelled : bool) (schedule : list Event)
  : option Result :=
  s ← run schedule (init cancelled);
  match pc s with
  | Returned r => Some r
  | _ => None
  end.

(** A state no goroutine can leave and from which the call has not
    returned. *)
Definition deadlocked (s : State) : Prop :=
  (∀ r, pc s ≠ Returned r) ∧ ∀ ev, step ev s = None.

(** The schedule that takes [n] documents one after the other: admit, run,
    release; then leave the loop, wait, check. *)
Definition one_by_one (n : nat) : list Event :=
  match n with
  | O => [EvMain]
  | _ =>
      [EvMain]
      ++ concat (replicate n [EvMain; EvSelectSem; EvMain; EvTask 0; EvRelease])
      ++ [EvMain; EvMain; EvMain]
  end.

End processDocumentsParallel.

(** ** [Update] and [List] *)

(** The methods of [documentStorage] that [Update] calls, over a store
    with state [St]. *)
Class documentStorage (St : Type) := {
  storage_GetByID : St → string → error + Doc;
  storage_Update : St → Doc → error + St
}.

Record Service (St : Type) := mkService {
  storage : St;
  cache : cache.Cache
}.

Arguments mkService {St}.
Arguments storage {St}.
Arguments cache {St}.

(** Lines 82-91: the fields of the request are merged into [doc]. *)
Definition merge (now : time.Time) (req : UpdateDocumentRequest) (doc : Doc) : Doc :=
  let doc := match req_Title req with
             | Some v => set_Title doc v
             | None => doc
             end in
  let doc := match req_Description req with
             | Some v => set_Description doc v
             | None => doc
             end in
  let doc := match req_Items req with
             | Some v => set_Items doc v
             | None => doc
             end in
  set_UpdatedAt doc now.

Definition Update {St} `{documentStorage St} (now : time.Time) (id : string)
    (req : UpdateDocumentRequest) (s : Service St)
  : (error + Doc) * Service St :=
  match storage_GetByID (storage s) id with
  | inl err => (inl (wrapErr "document not found" err), s)
  | inr doc =>
      let doc := merge now req doc in
      match storage_Update (storage s) doc with
      | inl err => (inl (wrapErr "failed to update document" err), s)
      | inr st => (inr doc, mkService st (cache.Delete id (cache s)))
      end
  end.

(** Lines 113-115 of [List]: the parameters with which the store is
    called. *)
Definition List_params (params : PaginationParams) : PaginationParams :=
  Validate params.

(** ** [Create], [GetByID], [Delete] and the whole of [List] *)

(** The other methods of [documentStorage] that the service calls. *)
Class documentStorageRest (St : Type) := {
  storage_Create : St → Doc → error + St;
  storage_Delete : St → string → error + St;
  storage_List : St → PaginationParams → error + (list Doc * Z)
}.

(** How a call ends: it returns, it panics, or it never returns. *)
Inductive Outcome (A : Type) :=
| Returns (a : A)
| Panics
| NoReturn.

Arguments Returns {A}.
Arguments Panics {A}.
Arguments NoReturn {A}.

(** [Create]; [newID] is what [generateID()] returns, [now1] and [now2]
    are the two readings of the clock. *)
Definition Create {St} `{documentStorageRest St} (newID : string)
    (now1 now2 : time.Time) (req : CreateDocumentRequest) (s : Service St)
  : (error + Doc) * Service St :=
  let doc := mkDocument newID (creq_Title req) (creq_Description req)
               now1 now2 (creq_Items req) EmptyString in
  match storage_Create (storage s) doc with
  | inl err => (inl (wrapErr "failed to create document" err), s)
  | inr st => (inr doc, mkService st (cache s))
  end.

(** [GetByID]. The cache holds pointers; [objs] are the documents they
    point to. [now1] and [now2] are the clock readings of [cache.Get],
    [now3] and [seed] those of [cache.Set]. The document fetched from the
    store is put at a new address, and it is that pointer which is
    cached. *)
Definition GetByID {St} `{documentStorage St} `{MapRange} `{SortSlice}
    (now1 now2 now3 : time.Time) (seed : nat) (id : string)
    (objs : gmap nat Doc) (s : Service St)
  : Outcome (error + Doc) * gmap nat Doc * Service St :=
  match cache.Get now1 now2 id (cache s) with
  | ((cachedDoc, true), c) =>
      match p ← cachedDoc; objs !! p with
      | Some d => (Returns (inr (processDocument d)), objs, mkService (storage s) c)
      | None => (Panics, objs, mkService (storage s) c)
      end
  | ((_, false), c) =>
      match storage_GetByID (storage s) id with
      | inl err =>
          (Returns (inl (wrapErr "document not found" err)), objs,
           mkService (storage s) c)
      | inr doc =>
          let p := fresh (dom objs) in
          let objs := <[p := doc]> objs in
          let c := cache.Set_ seed now3 id (Some p) c in
          (Returns (inr (processDocument doc)), objs, mkService (storage s) c)
      end
  end.

(** [Delete]: the error it returns, if any. *)
Definition Delete {St} `{documentStorageRest St} (id : string) (s : Service St)
  : option error * Service St :=
  match storage_Delete (storage s) id with
  | inl err => (Some (wrapErr "failed to delete document" err), s)
  | inr st => (None, mkService st (cache.Delete id (cache s)))
  end.

Section List.

Context {St : Type} `{documentStorageRest St} `{SortSlice}.
Variable NumCPU : nat.

(** [int(math.Ceil(float64(total) / float64(perPage)))], left open: the
    arithmetic is that of floating-point numbers. *)
Variable totalPages : Z → Z → Z.

(** [List], begun with the context done or not; [schedule] is the
    schedule of the goroutines of [processDocumentsParallel]. *)
Definition List (cancelled : bool) (schedule : list Event)
    (params : PaginationParams) (s : Service St)
  : Outcome (error + DocumentList) :=
  let params := Validate params in
  match storage_List (storage s) params with
  | inl err => Returns (inl (wrapErr "failed to list documents" err))
  | inr (documents, total) =>
      match processDocumentsParallel NumCPU documents cancelled schedule with
      | None => NoReturn
      | Some Panic => Panics
      | Some (Fail err) =>
          Returns (inl (wrapErr "failed to process documents" err))
      | Some (Ok processedDocs) =>
          Returns (inr (mkDocumentList processedDocs total
                          (Page params) (PerPage params)
                          (totalPages total (PerPage params))))
      end
  end.

End List.

End service.

(* ===================================================================== *)
(** * Package [handler] (internal/handler/handler.go)                     *)
(* ===================================================================== *)

Module handler.

Import model.

(** The interface [documentService], over a service with state [Sv]. *)
Class documentService (Sv : Type) := {
  svc_Create : Sv → CreateDocumentRequest → (error + service.Doc) * Sv;
  svc_GetByID : Sv → string → (error + service.Doc) * Sv;
  svc_Update : Sv → string → UpdateDocumentRequest → (error + service.Doc) * Sv;
  svc_Delete : Sv → string → option error * Sv;
  svc_List : Sv → PaginationParams → (error + DocumentList) * Sv
}.

(** What a handler reads from the request: the [id] of the route, the
    query of the URL, and what the JSON decoder makes of the body ([None]
    when it fails) as either kind of payload. *)
Record Request := mkRequest {
  url_id : string;
  query : gmap string (list string);
  body_create : option CreateDocumentRequest;
  body_update : option UpdateDocumentRequest
}.

(** The value that is encoded as the body of the response. *)
Inductive Data :=
| DataDocument (doc : service.Doc)
| DataList (page : DocumentList)
| DataMap (key value : string).       (* [map[string]string{key: value}] *)

(** What [respondJSON] writes: the status and the encoded value (the
    content type is always [application/json]). *)
Record Response := mkResponse {
  status : Z;
  data : Data
}.

Definition StatusOK : Z := 200.
Definition StatusCreated : Z := 201.
Definition StatusBadRequest : Z := 400.
Definition StatusNotFound : Z := 404.
Definition StatusInternalServerError : Z := 500.

Definition respondJSON (status : Z) (data : Data) : Response :=
  mkResponse status data.

Definition respondError (status : Z) (message : string) : Response :=
  respondJSON status (DataMap "error" message).


Section handlers.

Context {Sv : Type} `{documentService Sv}.

(** [strconv.Atoi]: [None] when it returns an error. *)
Variable Atoi : string → option Z.


Definition HealthCheck (sv : Sv) (r : Request) : Response * Sv :=
  (respondJSON StatusOK (DataMap "status" "ok"), sv).


Definition CreateDocument (sv : Sv) (r : Request) : Response * Sv :=
  match body_create r with
  | None => (respondError StatusBadRequest "invalid request body", sv)
  | Some req =>
      match svc_Create sv req with
      | (inl err, sv) =>
          (respondError StatusInternalServerError "failed to create document", sv)
      | (inr doc, sv) => (respondJSON StatusCreated (DataDocument doc), sv)
      end
  end.

Definition GetDocumentById (sv : Sv) (r : Request) : Response * Sv :=
  let id := url_id r in
  if bool_decide (id = EmptyString)
  then (respondError StatusBadRequest "document id is required", sv)
  else match svc_GetByID sv id with
       | (inl err, sv) => (respondError StatusNotFound "document not found", sv)
       | (inr doc, sv) => (respondJSON StatusOK (DataDocument doc), sv)
       end.

Definition UpdateDocument (sv : Sv) (r : Request) : Response * Sv :=
  let id := url_id r in
  if bool_decide (id = EmptyString)
  then (respondError StatusBadRequest "document id is required", sv)
  else match body_update r with
       | None => (respondError StatusBadRequest "invalid request body", sv)
       | Some req =>
           match svc_Update sv id req with
           | (inl err, sv) =>
               (respondError StatusInternalServerError
                             "failed to update document", sv)
           | (inr doc, sv) => (respondJSON StatusOK (DataDocument doc), sv)
           end
       end.

Definition DeleteDocument (sv : Sv) (r : Request) : Response * Sv :=
  let id := url_id r in
  if bool_decide (id = EmptyString)
  then (respondError StatusBadRequest "document id is required", sv)
  else match svc_Delete sv id with
       | (Some err, sv) =>
           (respondError StatusInternalServerError
                         "failed to delete document", sv)
       | (None, sv) =>
           (respondJSON StatusOK
              (DataMap "message" "document deleted successfully"), sv)
       end.

End handlers.

End handler.

(* ===================================================================== *)
(** * Vocabulary of the properties                                        *)
(* ===================================================================== *)

Section vocabulary.

Import model service.

Context `{SortSlice}.
Variable documents : list Doc.

(** The result that the task of each document sends, in input order. *)
Definition expected : list (nat * Doc) :=
  imap (λ i d, (i, processDocument d)) documents.

(** The result a started task will send. *)
Definition tag (t : nat * Doc) : nat * Doc := (t.1, processDocument t.2).

(** How many documents the loop has gone past. *)
Definition admitted (p : Pc) : nat :=
  match p with
  | LoopHead i | Select i | Spawn i => i
  | Wait | CheckCtx => length documents
  | Entry | Returned _ => 0
  end.

(** As long as the context is not done, the results sent and the results
    still to be sent by started tasks are those of the documents the loop
    has gone past; a call that has returned has returned the processed
    documents, or the context's error if the context was done. *)
Definition inv (s : State) : Prop :=
  match pc s with
  | Returned r =>
      if done s then r = Fail ctxErr ∨ (documents = [] ∧ r = Ok [])
      else r = Ok (processDocument <$> documents)
  | p =>
      (done s = false →
       results s ++ (tag <$> starting s) ≡ₚ take (admitted p) expected)
      ∧ (p = CheckCtx → starting s = [] ∧ releasing s = 0%nat)
  end.

End vocabulary.

(** The times of the ticks that [startCleanup] gets before it is
    stopped. *)
Fixpoint ticks_before_stop (wakeups : list cache.Wakeup) : list time.Time :=
  match wakeups with
  | [] => []
  | cache.Tick _ now :: rest => now :: ticks_before_stop rest
  | cache.Stopped :: _ => []
  end.


#[global] Instance Event_eq_dec : EqDecision service.Event.
Proof. solve_decision. Defined.

Section accounting.

Import model service.

(** Tasks that have been started and have not finished. *)
Definition in_flight (s : State) : nat :=
  (length (starting s) + releasing s)%nat.

(** The values in [sem] against the tasks in flight. Each task in flight
    has put one value into [sem], except that a task started through the
    [ctx.Done()] branch of the [select] has put none. *)
Definition slots (NumCPU : nat) (s : State) : Prop :=
  (sem s ≤ NumCPU)%nat
  ∧ match pc s with
    | Spawn _ =>
        (in_flight s + 1 = sem s)%nat
        ∨ (done s = true ∧ in_flight s = sem s)
    | LoopHead _ | Wait =>
        in_flight s = sem s
        ∨ (done s = true ∧ in_flight s = (sem s + 1)%nat)
    | Entry | Select _ | CheckCtx | Returned _ => in_flight s = sem s
    end.

(** The states after the [ctx.Done()] branch of the [select] was taken:
    one task more than there are values in [sem]. *)
Definition short_of_a_slot (s : State) : Prop :=
  done s = true
  ∧ match pc s with
    | Spawn _ => in_flight s = sem s
    | LoopHead _ | Wait => in_flight s = (sem s + 1)%nat
    | Entry | Select _ | CheckCtx | Returned _ => False
    end.

(** How far the loop has come, as a bound on the indices of started
    tasks. *)
Definition next_index (documents : list Doc) (p : Pc) : nat :=
  match p with
  | Entry => 0
  | LoopHead i | Select i | Spawn i => i
  | Wait | CheckCtx | Returned _ => length documents
  end.

(** Every index is in the hands of at most one task or result, and
    belongs to a document the loop has gone past. *)
Definition sent_once (documents : list Doc) (s : State) : Prop :=
  NoDup ((results s).*1 ++ (starting s).*1)
  ∧ (∀ k, k ∈ (results s).*1 ++ (starting s).*1 →
          (k < next_index documents (pc s))%nat)
  ∧ (next_index documents (pc s) ≤ length documents)%nat.

(** A started task carries the document of its index, and a result is the
    processed form of the document of its index. *)
Definition well_tagged `{SortSlice} (documents : list Doc) (s : State) : Prop :=
  (∀ k d, (k, d) ∈ starting s → documents !! k = Some d)
  ∧ (∀ k d', (k, d') ∈ results s →
             ∃ d, documents !! k = Some d ∧ d' = processDocument d).

(** The accounting of the calls in which the [ctx.Done()] branch of the
    [select] is never taken: every task in flight holds a value of [sem],
    and the loop only selects and starts for a document that exists. *)
Definition balanced (documents : list Doc) (s : State) : Prop :=
  match pc s with
  | Spawn i => (in_flight s + 1 = sem s)%nat ∧ is_Some (documents !! i)
  | Select i => in_flight s = sem s ∧ is_Some (documents !! i)
  | Entry | LoopHead _ | Wait | CheckCtx | Returned _ => in_flight s = sem s
  end.

(** A bound on the steps a call can still take: those of the main
    goroutine to its return, two for each task to start and one for each to
    release, and the cancellation. *)
Definition steps_left (documents : list Doc) (s : State) : nat :=
  ((if done s then 0 else 1)
   + match pc s with
     | Entry => 5 * length documents + 4
     | LoopHead i => 5 * (length documents - i) + 3
     | Select i => 5 * (length documents - i) + 2
     | Spawn i => 5 * (length documents - i) + 1
     | Wait => 2
     | CheckCtx => 1
     | Returned _ => 0
     end
   + 2 * length (starting s) + releasing s)%nat.

End accounting.

(** What holds all along a call that begins with the context done, on a
    list that is not empty: no task is ever started. *)
Definition idle (s : service.State) : Prop :=
  service.done s = true ∧ service.sem s = 0%nat
  ∧ service.starting s = [] ∧ service.releasing s = 0%nat
  ∧ service.results s = []
  ∧ (service.pc s = service.Entry ∨ service.pc s = service.LoopHead 0
     ∨ service.pc s = service.Wait ∨ service.pc s = service.CheckCtx
     ∨ service.pc s = service.Returned (service.Fail ctxErr)).

(** Items in descending order of [Sort]. *)
Definition descending (x : list model.FirstLevelItem) : Prop :=
  StronglySorted (λ a b, model.Sort b <= model.Sort a) x.

(** Items that share a [Sort] key stand in [y] in the order they have in
    [x]. *)
Definition same_order_among_equal (x y : list model.FirstLevelItem) : Prop :=
  ∀ k : Z, filter (λ a, model.Sort a = k) y = filter (λ a, model.Sort a = k) x.

(** A critical section that is a [Set]. *)
Definition is_OpSet (op : cache.Op) : bool :=
  match op with
  | cache.OpSet _ _ _ _ => true
  | _ => false
  end.

(** What is left of an entry once expired entries are dropped. *)
Definition live (now : time.Time) (o : option cache.cacheItem)
  : option cache.cacheItem :=
  item ← o; if time.After now (cache.expiresAt item) then None else Some item.

(* ===================================================================== *)
(** * Implementations of the interfaces, and example data                 *)
(* ===================================================================== *)

(** A runtime that walks every map in the order of [map_to_list]. *)
Definition listRange : MapRange :=
  {| range V _ m := map_to_list m;
     range_perm V _ m := reflexivity (map_to_list m) |}.

Lemma front_perm {V : Type} (key : string) (m : gmap string V) :
  match m !! key with
  | Some v => (key, v) :: map_to_list (delete key m)
  | None => map_to_list m
  end ≡ₚ map_to_list m.
Proof.
  destruct (m !! key) as [v|] eqn:Hk; [|done]. by apply map_to_list_delete.
Qed.

(** A runtime whose walks meet [key] first, when it is there. *)
Definition frontRange (key : string) : MapRange :=
  {| range V _ m :=
       match m !! key with
       | Some v => (key, v) :: map_to_list (delete key m)
       | None => map_to_list m
       end;
     range_perm V _ m := front_perm key m |}.

(** A store kept in memory, used to run [Update] on examples: documents by
    ID; writing a document that is not there is an error. *)
Definition memStorage : service.documentStorage (gmap string service.Doc) :=
  {| service.storage_GetByID st id :=
       match st !! id with
       | Some doc => inr doc
       | None => inl (storageErr "document not found")
       end;
     service.storage_Update st doc :=
       match st !! model.ID doc with
       | Some _ => inr (<[model.ID doc := doc]> st)
       | None => inl (storageErr "failed to update document")
       end |}.

(** The rest of the store kept in memory: creating a document whose ID is
    taken is an error; a listing gives all documents, whatever the page. *)
Definition memStorageRest : service.documentStorageRest (gmap string service.Doc) :=
  {| service.storage_Create st doc :=
       match st !! model.ID doc with
       | Some _ => inl (storageErr "failed to insert document")
       | None => inr (<[model.ID doc := doc]> st)
       end;
     service.storage_Delete st id := inr (delete id st);
     service.storage_List st params :=
       inr ((map_to_list st).*2, Z.of_nat (size st)) |}.

(** A service that fails at every call. *)
Definition downService : handler.documentService unit :=
  {| handler.svc_Create _ _ := (inl (storageErr "down"), tt);
     handler.svc_GetByID _ _ := (inl (storageErr "down"), tt);
     handler.svc_Update _ _ _ := (inl (storageErr "down"), tt);
     handler.svc_Delete _ _ := (Some (storageErr "down"), tt);
     handler.svc_List _ _ := (inl (storageErr "down"), tt) |}.

Section merge_sorts.

Context {A : Type} (less : A → A → bool).

(** [a] may stand before [b]. *)
Definition not_after (a b : A) : Prop := less b a = false.

#[global] Instance not_after_dec a b : Decision (not_after a b).
Proof. unfold not_after. apply _. Defined.

(** Merge sort, as one way of doing what [sort.Slice] promises. *)
Definition mergeSort (x : list A) : list A := merge_sort not_after x.

End merge_sorts.

(** Items and documents with only the fields the tests set. *)
Definition item (id : string) (sort : Z) : model.FirstLevelItem :=
  model.mkFirstLevelItem id "" sort "" [] "".

Definition document (id : string) (its : list model.FirstLevelItem) : service.Doc :=
  model.mkDocument id "" "" 0 0 (Some its) "".

(** The documents of [TestService_List_ConcurrencyAndSort]. *)
Definition test_documents : list service.Doc :=
  [document "doc-1" [item "item-1" 10; item "item-2" 50; item "item-3" 5];
   document "doc-2" [item "item-A" 1; item "item-B" 99]].

Definition test_processed : list service.Doc :=
  [document "doc-1" [item "item-2" 50; item "item-1" 10; item "item-3" 5];
   document "doc-2" [item "item-B" 99; item "item-A" 1]].

(** Both tasks are started before either runs, and the second one runs
    first. *)
Definition second_task_first : list service.Event :=
  [service.EvMain;
   service.EvMain; service.EvSelectSem; service.EvMain;
   service.EvMain; service.EvSelectSem; service.EvMain;
   service.EvMain;
   service.EvTask 1; service.EvTask 0;
   service.EvRelease; service.EvRelease;
   service.EvMain; service.EvMain].

(** Both tasks are started and none has run. *)
Definition both_started : list service.Event :=
  [service.EvMain;
   service.EvMain; service.EvSelectSem; service.EvMain;
   service.EvMain; service.EvSelectSem; service.EvMain].

(** The context is cancelled between the test at the head of the loop and
    the [select], and the [select] takes the [ctx.Done()] branch. *)
Definition cancelled_at_select : list service.Event :=
  [service.EvMain; service.EvMain; service.EvCancel; service.EvSelectDone;
   service.EvMain; service.EvMain; service.EvTask 0].

Definition tied_document : service.Doc :=
  document "doc-1" [item "item-A" 1; item "item-B" 1].

(** Thirteen items, all but one with the same [Sort]. ([sort.Slice] sorts
    up to twelve elements by insertion; from thirteen on it partitions
    around a pivot that it first swaps to the front.) *)
Definition thirteen_items : service.Doc :=
  document "doc-1"
    [item "item-0" 1; item "item-1" 1; item "item-2" 1; item "item-3" 2;
     item "item-4" 1; item "item-5" 1; item "item-6" 1; item "item-7" 1;
     item "item-8" 1; item "item-9" 1; item "item-10" 1; item "item-11" 1;
     item "item-12" 1].

(** A heap with one document of three items, inside a longer array. *)
Definition heap_example : service.Heap :=
  service.mkHeap
    {[ 7%nat := [item "pad" 0; item "item-1" 10; item "item-2" 50;
                 item "item-3" 5; item "pad" 0] ]}
    {[ 3%nat := model.mkDocument "doc-1" "t" "d" 1 2
                  (Some (service.mkSlice 7 1 3)) "i" ]}.

Definition doc_example : service.Doc :=
  model.mkDocument "doc-1" "old title" "old description" 100 100
    (Some [model.mkFirstLevelItem "item-1" "n" 10 "v" [] ""]) "internal".

Definition req_example : model.UpdateDocumentRequest :=
  model.mkUpdateDocumentRequest (Some "new title") None None.

Definition service_example : service.Service (gmap string service.Doc) :=
  service.mkService {["doc-1" := doc_example]} (cache.New 0 0 1).

(** A cache that holds a pointer to [doc_example] until time 60, and the
    documents that pointers point to. *)
Definition cache_doc1 : cache.Cache :=
  cache.Set_ (H := listRange) 0 10 "doc-1" (Some 0%nat) (cache.New 50 60 1).

Definition objs_doc1 : gmap nat service.Doc := {[ 0%nat := doc_example ]}.

(** A service whose store holds [doc_example] and whose cache is empty. *)
Definition service_doc1 : service.Service (gmap string service.Doc) :=
  service.mkService {["doc-1" := doc_example]} (cache.New 50 60 1).

(** Capacity 1: the second [Set] evicts the first entry. *)
Definition cache_ab : cache.Cache :=
  cache.run (H := listRange)
    [cache.OpSet 0 10 "a" (Some 1%nat); cache.OpSet 0 20 "b" (Some 2%nat)]
    (cache.New 5 60 1).

(* ===================================================================== *)
(** * Properties                                                          *)
(* ===================================================================== *)

(** ** Pagination *)

Section pagination.

Import model.

Lemma wrap_small (z : Z) : GoInt.inRange z → GoInt.wrap z = z.
Proof.
  unfold GoInt.inRange, GoInt.minInt, GoInt.maxInt, GoInt.wrap. intros Hz.
  rewrite Z.mod_small; lia.
Qed.

Lemma wrap_mul_wrap_l (a b : Z) : GoInt.wrap (GoInt.wrap a * b) = GoInt.wrap (a * b).
Proof.
  unfold GoInt.wrap. f_equal.
  replace (((a + 2 ^ 63) mod 2 ^ 64 - 2 ^ 63) * b + 2 ^ 63)
    with ((a + 2 ^ 63) mod 2 ^ 64 * b + (2 ^ 63 - 2 ^ 63 * b)) by ring.
  replace (a * b + 2 ^ 63)
    with ((a + 2 ^ 63) * b + (2 ^ 63 - 2 ^ 63 * b)) by ring.
  rewrite (Z.add_mod ((a + 2 ^ 63) mod 2 ^ 64 * b)) by lia.
  rewrite (Z.add_mod ((a + 2 ^ 63) * b)) by lia.
  rewrite Z.mul_mod_idemp_l by lia. reflexivity.
Qed.

Lemma GetOffset_wrap (p : PaginationParams) :
  GetOffset p = GoInt.wrap ((Page p - 1) * PerPage p).
Proof. unfold GetOffset, GoInt.mul, GoInt.sub. apply wrap_mul_wrap_l. Qed.

Lemma Validate_Page (p : PaginationParams) :
  Page (Validate p) = if Page p <? 1 then 1 else Page p.
Proof.
  unfold Validate. destruct p as [pg pp]; simpl.
  repeat (case_match; simpl in * ); reflexivity.
Qed.

Lemma Validate_PerPage (p : PaginationParams) :
  PerPage (Validate p) =
    if PerPage p <? 1 then 10 else if 100 <? PerPage p then 100 else PerPage p.
Proof.
  unfold Validate. destruct p as [pg pp]; simpl.
  repeat (case_match; simpl in * ); try reflexivity; lia.
Qed.

(** C9 (as amended). [Service.List] hands the store validated parameters:
    [Page] is at least 1 (1 if it was below 1), [PerPage] lies in 1..100
    (10 if it was below 1, 100 if it was above 100), and the offset of the
    store's query is [(Page - 1) * PerPage] reduced to a 64-bit [int]; it is
    that product exactly whenever the product does not exceed the largest
    [int]. *)
Theorem List_pagination_clamped (p : PaginationParams) :
  let p' := service.List_params p in
  let q := storage.List_query p' in
  1 <= Page p'
  ∧ (Page p < 1 → Page p' = 1)
  ∧ (1 <= Page p → Page p' = Page p)
  ∧ 1 <= PerPage p' <= 100
  ∧ (PerPage p < 1 → PerPage p' = 10)
  ∧ (100 < PerPage p → PerPage p' = 100)
  ∧ (1 <= PerPage p <= 100 → PerPage p' = PerPage p)
  ∧ storage.Limit q = PerPage p'
  ∧ storage.Offset q = GoInt.wrap ((Page p' - 1) * PerPage p')
  ∧ ((Page p' - 1) * PerPage p' <= GoInt.maxInt →
     storage.Offset q = (Page p' - 1) * PerPage p').
Proof.
  intros p' q. subst q p'. unfold service.List_params, storage.List_query.
  cbn [storage.Limit storage.Offset].
  rewrite GetOffset_wrap, Validate_Page, Validate_PerPage.
  assert (Hpg : 1 <= (if Page p <? 1 then 1 else Page p)) by (case_match; lia).
  assert (Hpp : 1 <= (if PerPage p <? 1 then 10
                      else if 100 <? PerPage p then 100 else PerPage p) <= 100)
    by (repeat case_match; lia).
  repeat split; try lia; try (intros; repeat case_match; lia).
  intros Hmax. apply wrap_small. unfold GoInt.inRange, GoInt.minInt in *. nia.
Qed.

Lemma List_pagination_clamped_witness :
  let p' := service.List_params (mkPaginationParams 0 1000) in
  Page p' = 1 ∧ PerPage p' = 100
  ∧ storage.Offset (storage.List_query p') = (Page p' - 1) * PerPage p'.
Proof.
  pose proof (List_pagination_clamped (mkPaginationParams 0 1000))
    as (_ & Hpg & _ & _ & _ & Hpp & _ & _ & _ & Hoff).
  cbv zeta in Hpg, Hpp, Hoff. cbv zeta.
  split; [apply Hpg; simpl; lia|]. split; [apply Hpp; simpl; lia|].
  apply Hoff. vm_compute. discriminate.
Defined.

(** C9, as stated, fails: with [page] the largest [int] and [per_page] 100
    the product overflows, and the store is asked for offset -200. *)
Lemma List_offset_overflows :
  let p' := service.List_params (mkPaginationParams GoInt.maxInt 100) in
  Page p' = GoInt.maxInt ∧ PerPage p' = 100
  ∧ storage.Offset (storage.List_query p') = -200
  ∧ storage.Offset (storage.List_query p') ≠ (Page p' - 1) * PerPage p'.
Proof. vm_compute. repeat split; congruence. Qed.

End pagination.

(** ** [Service.Update] *)


Section update.

Import model service.

Context {St : Type} `{documentStorage St}.

Lemma merge_fields (now : time.Time) (req : UpdateDocumentRequest) (doc : Doc) :
  let doc' := merge now req doc in
  Title doc' = default (Title doc) (req_Title req)
  ∧ Description doc' = default (Description doc) (req_Description req)
  ∧ Items doc' = default (Items doc) (req_Items req)
  ∧ UpdatedAt doc' = now
  ∧ ID doc' = ID doc
  ∧ CreatedAt doc' = CreatedAt doc
  ∧ Internal doc' = Internal doc.
Proof.
  unfold merge. destruct req as [[t|] [de|] [it|]]; destruct doc; cbn;
    repeat split; reflexivity.
Qed.

(** C10. When the store has the document, [Update] writes to the store a
    document in which [Title], [Description] and [Items] are replaced by the
    request's values exactly where the request's pointer is not nil, every
    other field but [UpdatedAt] is the stored one, and [UpdatedAt] is the
    current time; on a successful write that document is returned and the
    cache entry is dropped, on a failed write nothing changes. *)
Theorem Update_partial_merge (now : time.Time) (id : string)
    (req : UpdateDocumentRequest) (s : Service St) (doc : Doc) :
  storage_GetByID (storage s) id = inr doc →
  ∃ written : Doc,
    Title written = default (Title doc) (req_Title req)
    ∧ Description written = default (Description doc) (req_Description req)
    ∧ Items written = default (Items doc) (req_Items req)
    ∧ UpdatedAt written = now
    ∧ ID written = ID doc
    ∧ CreatedAt written = CreatedAt doc
    ∧ Internal written = Internal doc
    ∧ match storage_Update (storage s) written with
      | inr st' =>
          Update now id req s
          = (inr written, mkService st' (cache.Delete id (cache s)))
      | inl err =>
          Update now id req s
          = (inl (wrapErr "failed to update document" err), s)
      end.
Proof.
  intros Hget. exists (merge now req doc).
  pose proof (merge_fields now req doc) as Hm. cbv zeta in Hm.
  destruct Hm as (? & ? & ? & ? & ? & ? & ?).
  repeat (split; [assumption|]).
  unfold Update. rewrite Hget.
  destruct (storage_Update (storage s) (merge now req doc)); reflexivity.
Qed.

(** When the store does not have the document, [Update] fails and nothing
    is written. *)
Lemma Update_not_found (now : time.Time) (id : string)
    (req : UpdateDocumentRequest) (s : Service St) (err : error) :
  storage_GetByID (storage s) id = inl err →
  Update now id req s = (inl (wrapErr "document not found" err), s).
Proof. intros Hget. unfold Update. rewrite Hget. reflexivity. Qed.

End update.


Lemma Update_partial_merge_witness :
  ∃ written : service.Doc,
    model.Title written = "new title"
    ∧ model.Description written = "old description"
    ∧ model.Items written = model.Items doc_example
    ∧ model.UpdatedAt written = 500.
Proof.
  destruct (@Update_partial_merge _ memStorage 500 "doc-1" req_example
              service_example doc_example) as (w & Ht & Hd & Hi & Hu & _).
  - reflexivity.
  - exists w. repeat split; assumption.
Defined.

(** ** The cache *)


Section cache_facts.

Import cache.

Context `{MapRange}.

Lemma range_head {V} (seed : nat) (m : gmap string V) key v rest :
  range seed m = (key, v) :: rest → m !! key = Some v.
Proof.
  intros Hr. apply elem_of_map_to_list. rewrite <- (range_perm V seed m), Hr.
  left.
Qed.

Lemma range_nil {V} (seed : nat) (m : gmap string V) :
  range seed m = [] → m = ∅.
Proof.
  intros Hr. apply map_to_list_empty_iff, Permutation_nil_r.
  rewrite <- Hr. symmetry. apply range_perm.
Qed.

Lemma elem_of_range {V} (seed : nat) (m : gmap string V) key v :
  (key, v) ∈ range seed m ↔ m !! key = Some v.
Proof. rewrite (range_perm V seed m). apply elem_of_map_to_list. Qed.

(** [evictRandom] removes one resident entry, unless there is none. *)
Lemma evictRandom_spec (seed : nat) (c : Cache) :
  (items c = ∅ ∧ evictRandom seed c = c)
  ∨ ∃ key item, items c !! key = Some item
                ∧ evictRandom seed c = set_items c (delete key (items c)).
Proof.
  unfold evictRandom. destruct (range seed (items c)) as [|[key item] rest] eqn:Hr.
  - left. split; [by eapply range_nil | done].
  - right. exists key, item. split; [by eapply range_head | done].
Qed.

Lemma Get_evict_items (now : time.Time) (id : string) (c : Cache) :
  items (Get_evict now id c) = items c
  ∨ (∃ item, items c !! id = Some item ∧ expiresAt item < now
             ∧ items (Get_evict now id c) = delete id (items c)).
Proof.
  unfold Get_evict, time.After. destruct (items c !! id) as [item|] eqn:Hi; [|by left].
  destruct (expiresAt item <? now) eqn:Hlt; [|by left].
  right. exists item. apply Z.ltb_lt in Hlt. done.
Qed.

Lemma Get_evict_capacity (now : time.Time) (id : string) (c : Cache) :
  capacity (Get_evict now id c) = capacity c.
Proof. unfold Get_evict. repeat case_match; reflexivity. Qed.

Lemma Get_evict_size (now : time.Time) (id : string) (c : Cache) :
  len_items (Get_evict now id c) <= len_items c.
Proof.
  unfold len_items. destruct (Get_evict_items now id c) as [->|(item & Hi & _ & ->)].
  - lia.
  - rewrite map_size_delete, Hi. simpl. lia.
Qed.

Lemma sweep_fold_bound (now : time.Time) (keys : list string) (c : Cache) :
  let c' := foldl (λ c key, Get_evict now key c) c keys in
  capacity c' = capacity c ∧ len_items c' <= len_items c.
Proof.
  revert c. induction keys as [|key keys IH]; intros c; simpl; [lia|].
  destruct (IH (Get_evict now key c)) as [Hc Hl].
  rewrite Hc, Get_evict_capacity. split; [done|].
  pose proof (Get_evict_size now key c). lia.
Qed.

Lemma cleanup_sweep_bound (now : time.Time) (keys : list string) (c : Cache) :
  capacity (cleanup_sweep now keys c) = capacity c
  ∧ len_items (cleanup_sweep now keys c) <= len_items c.
Proof.
  unfold cleanup_sweep. case_match; [apply sweep_fold_bound | lia].
Qed.

(** [Set] on a key that is not resident, in a full cache: one resident
    entry goes, the new one comes. *)
Lemma Set_new_key_full (seed : nat) (now : time.Time) (id : string)
    (doc : DocPtr) (c : Cache) :
  items c !! id = None → 0 < capacity c → capacity c <= len_items c →
  ∃ key item,
    items c !! key = Some item ∧ key ≠ id
    ∧ evictRandom seed c = set_items c (delete key (items c))
    ∧ items (Set_ seed now id doc c)
      = <[id := mkCacheItem doc (time.Add now (ttl c))]> (delete key (items c))
    ∧ len_items (Set_ seed now id doc c) = len_items c.
Proof.
  intros Hid Hcap Hfull.
  destruct (evictRandom_spec seed c) as [[Hem _]|(key & item & Hk & Hev)].
  { exfalso. unfold len_items in Hfull. rewrite Hem, map_size_empty in Hfull. lia. }
  assert (key ≠ id) by congruence.
  exists key, item. split; [done|]. split; [done|]. split; [done|].
  unfold Set_. rewrite bool_decide_eq_true_2 by done.
  replace (0 <? capacity c) with true by (symmetry; apply Z.ltb_lt; lia).
  replace (capacity c <=? len_items c) with true by (symmetry; apply Z.leb_le; lia).
  simpl. rewrite Hev. simpl. split; [done|].
  unfold len_items. simpl.
  rewrite map_size_insert_None by (rewrite lookup_delete_ne; done).
  rewrite map_size_delete, Hk. simpl.
  assert (size (items c) ≠ 0%nat) by (eapply map_size_ne_0_lookup_2; eauto).
  lia.
Qed.

(** [Set] on a resident key replaces that entry and touches no other. *)
Lemma Set_resident_key (seed : nat) (now : time.Time) (id : string)
    (doc : DocPtr) (c : Cache) :
  is_Some (items c !! id) →
  items (Set_ seed now id doc c)
  = <[id := mkCacheItem doc (time.Add now (ttl c))]> (items c)
  ∧ (∀ key, key ≠ id → items (Set_ seed now id doc c) !! key = items c !! key)
  ∧ len_items (Set_ seed now id doc c) = len_items c.
Proof.
  intros Hid. unfold Set_.
  rewrite bool_decide_eq_false_2 by (intros Hn; rewrite Hn in Hid; by destruct Hid).
  simpl. split; [done|]. split.
  - intros key Hne. by rewrite lookup_insert_ne.
  - unfold len_items. simpl. by rewrite map_size_insert_Some.
Qed.

(** [Set] on a key that is not resident, with room left. *)
Lemma Set_new_key_room (seed : nat) (now : time.Time) (id : string)
    (doc : DocPtr) (c : Cache) :
  items c !! id = None → len_items c < capacity c →
  items (Set_ seed now id doc c)
  = <[id := mkCacheItem doc (time.Add now (ttl c))]> (items c)
  ∧ len_items (Set_ seed now id doc c) = len_items c + 1.
Proof.
  intros Hid Hroom. unfold Set_.
  replace (capacity c <=? len_items c) with false by (symmetry; apply Z.leb_gt; lia).
  rewrite andb_false_r. simpl. split; [done|].
  unfold len_items. simpl. rewrite map_size_insert_None by done. lia.
Qed.

Lemma Set_capacity (seed : nat) (now : time.Time) (id : string)
    (doc : DocPtr) (c : Cache) :
  capacity (Set_ seed now id doc c) = capacity c.
Proof.
  unfold Set_. case_match; [|done]. simpl.
  unfold evictRandom. repeat case_match; reflexivity.
Qed.

Lemma Set_ttl (seed : nat) (now : time.Time) (id : string)
    (doc : DocPtr) (c : Cache) :
  items (Set_ seed now id doc c) !! id
  = Some (mkCacheItem doc (time.Add now (ttl c))).
Proof.
  unfold Set_. case_match; simpl.
  - replace (ttl (evictRandom seed c)) with (ttl c)
      by (unfold evictRandom; repeat case_match; reflexivity).
    apply lookup_insert_eq.
  - apply lookup_insert_eq.
Qed.

(** Every critical section keeps a bounded cache within its bound. *)
Lemma apply_bound (c : Cache) (op : Op) :
  0 < capacity c → len_items c <= capacity c →
  capacity (apply c op) = capacity c ∧ len_items (apply c op) <= capacity c.
Proof.
  intros Hcap Hle. destruct op as [seed now id doc|id| |now id|now keys];
    cbn [apply].
  - split; [apply Set_capacity|].
    destruct (items c !! id) as [item|] eqn:Hid.
    + destruct (Set_resident_key seed now id doc c) as (_ & _ & ->); [eauto|lia].
    + destruct (Z.lt_ge_cases (len_items c) (capacity c)) as [Hroom|Hfull].
      * destruct (Set_new_key_room seed now id doc c) as (_ & ->); [done..|lia].
      * destruct (Set_new_key_full seed now id doc c)
          as (? & ? & _ & _ & _ & _ & ->); [done..|lia].
  - split; [done|]. unfold Delete, len_items in *. simpl.
    rewrite map_size_delete. case_match; simpl; lia.
  - split; [done|]. unfold Clear, len_items. simpl. rewrite map_size_empty. lia.
  - split; [apply Get_evict_capacity|]. pose proof (Get_evict_size now id c). lia.
  - destruct (cleanup_sweep_bound now keys c). split; [done|lia].
Qed.

Lemma run_bound (ops : list Op) (c : Cache) :
  0 < capacity c → len_items c <= capacity c →
  capacity (run ops c) = capacity c ∧ len_items (run ops c) <= capacity c.
Proof.
  revert c. unfold run. induction ops as [|op ops IH]; intros c Hcap Hle; simpl.
  - split; [done|lia].
  - destruct (apply_bound c op Hcap Hle) as [Hc Hl].
    destruct (IH (apply c op)) as [Hc' Hl']; [lia..|]. split; [congruence|lia].
Qed.

Lemma apply_ttl (c : Cache) (op : Op) : ttl (apply c op) = ttl c.
Proof.
  destruct op as [seed now id doc|id| |now id|now keys]; cbn [apply]; try done.
  - unfold Set_, evictRandom. repeat case_match; reflexivity.
  - unfold Get_evict. repeat case_match; reflexivity.
  - unfold cleanup_sweep. case_match; [|done]. clear. revert c.
    induction keys as [|key keys IH]; intros c; simpl; [done|].
    rewrite IH. unfold Get_evict. repeat case_match; reflexivity.
Qed.

Lemma run_ttl (ops : list Op) (c : Cache) : ttl (run ops c) = ttl c.
Proof.
  revert c. unfold run. induction ops as [|op ops IH]; intros c; simpl; [done|].
  by rewrite IH, apply_ttl.
Qed.

End cache_facts.

Section cache_expiry.

Import cache.

Context `{MapRange}.


Lemma live_idemp (now : time.Time) (o : option cacheItem) :
  live now (live now o) = live now o.
Proof.
  unfold live. destruct o as [item|]; simpl; [|done].
  destruct (time.After now (expiresAt item)) eqn:Ha; simpl; [done|]. by rewrite Ha.
Qed.

Lemma Get_evict_lookup (now : time.Time) (key id : string) (c : Cache) :
  items (Get_evict now key c) !! id
  = if decide (key = id) then live now (items c !! id) else items c !! id.
Proof.
  unfold Get_evict, live. case_decide as Hk.
  - subst key. destruct (items c !! id) as [item|] eqn:Hi; simpl; [|done].
    destruct (time.After now (expiresAt item)); simpl; [|done].
    apply lookup_delete_eq.
  - destruct (items c !! key) as [item|]; [|done].
    destruct (time.After now (expiresAt item)); simpl; [|done].
    by apply lookup_delete_ne.
Qed.

Lemma sweep_fold_lookup (now : time.Time) (keys : list string) (id : string)
    (c : Cache) :
  items (foldl (λ c key, Get_evict now key c) c keys) !! id
  = if decide (id ∈ keys) then live now (items c !! id) else items c !! id.
Proof.
  revert c. induction keys as [|key keys IH]; intros c; simpl.
  - reflexivity.
  - rewrite IH, Get_evict_lookup.
    destruct (decide (key = id)) as [->|Hne].
    + rewrite live_idemp. rewrite (decide_True (P := id ∈ id :: keys)) by left.
      destruct (decide (id ∈ keys)); reflexivity.
    + destruct (decide (id ∈ keys)) as [Hin|Hnin].
      * rewrite decide_True; [done|]. by right.
      * rewrite decide_False; [done|]. rewrite elem_of_cons. intros [?|?]; congruence.
Qed.

Lemma cleanup_sweep_lookup (now : time.Time) (keys : list string) (id : string)
    (c : Cache) :
  items (cleanup_sweep now keys c) !! id
  = if decide (id ∈ keys) then live now (items c !! id) else items c !! id.
Proof.
  unfold cleanup_sweep. destruct keys as [|key keys]; simpl.
  - reflexivity.
  - apply (sweep_fold_lookup now (key :: keys)).
Qed.

Lemma collect_fold_elem (now : time.Time) (l : list (string * cacheItem))
    (acc : list string) (key : string) :
  key ∈ foldl (λ keysToDelete kv,
                 if time.After now (expiresAt kv.2)
                 then keysToDelete ++ [kv.1] else keysToDelete) acc l
  ↔ key ∈ acc ∨ ∃ item, (key, item) ∈ l ∧ time.After now (expiresAt item) = true.
Proof.
  revert acc. induction l as [|[k item] l IH]; intros acc; simpl.
  - split; [by left|]. intros [?|(item & Hin & _)]; [done|]. by apply elem_of_nil in Hin.
  - rewrite IH. destruct (time.After now (expiresAt item)) eqn:Ha.
    + rewrite elem_of_app, list_elem_of_singleton. split.
      * intros [[?| ->]|(item' & Hin & Ha')]; [by left| |].
        -- right. exists item. split; [left|done].
        -- right. exists item'. split; [by right|done].
      * intros [?|(item' & Hin & Ha')]; [by left; left|].
        apply elem_of_cons in Hin as [Heq|Hin].
        -- inversion Heq; subst. left; by right.
        -- right. by exists item'.
    + split.
      * intros [?|(item' & Hin & Ha')]; [by left|].
        right. exists item'. split; [by right|done].
      * intros [?|(item' & Hin & Ha')]; [by left|].
        apply elem_of_cons in Hin as [Heq|Hin].
        -- inversion Heq; subst. congruence.
        -- right. by exists item'.
Qed.

(** The first pass of [cleanup] lists exactly the keys of expired entries. *)
Lemma cleanup_collect_elem (seed : nat) (now : time.Time) (c : Cache)
    (key : string) :
  key ∈ cleanup_collect seed now c
  ↔ ∃ item, items c !! key = Some item ∧ expiresAt item < now.
Proof.
  unfold cleanup_collect. rewrite collect_fold_elem. unfold time.After. split.
  - intros [Hin|(item & Hin & Ha)]; [by apply elem_of_nil in Hin|].
    exists item. split; [by apply elem_of_range in Hin | by apply Z.ltb_lt].
  - intros (item & Hi & Hlt). right. exists item.
    split; [by apply elem_of_range | by apply Z.ltb_lt].
Qed.

(** The two passes of [cleanup] with other goroutines in between: [c1] is
    the cache during the first pass, [c2] during the second. An entry that
    was expired in the first pass and is still the entry of its key is
    removed; an entry that is not expired in the second pass stays. *)
Lemma cleanup_passes (seed : nat) (now : time.Time) (c1 c2 : Cache)
    (id : string) (item : cacheItem) :
  items c2 !! id = Some item →
  let c' := cleanup_sweep now (cleanup_collect seed now c1) c2 in
  (items c1 !! id = Some item → expiresAt item < now → items c' !! id = None)
  ∧ (now <= expiresAt item → items c' !! id = Some item).
Proof.
  intros H2 c'. subst c'. rewrite cleanup_sweep_lookup, H2. split.
  - intros H1 Hlt. rewrite decide_True by (apply cleanup_collect_elem; eauto).
    unfold live, time.After. simpl.
    by replace (expiresAt item <? now) with true by (symmetry; by apply Z.ltb_lt).
  - intros Hle. unfold live, time.After. simpl.
    replace (expiresAt item <? now) with false by (symmetry; apply Z.ltb_ge; lia).
    by case_decide.
Qed.

(** [Get] on an expired entry, run without interference: not found, and
    the entry is deleted. *)
Lemma Get_expired (now1 now2 : time.Time) (id : string) (c : Cache)
    (item : cacheItem) :
  now1 <= now2 → items c !! id = Some item → expiresAt item < now1 →
  Get now1 now2 id c = ((None, false), set_items c (delete id (items c))).
Proof.
  intros Hmono Hi Hlt. unfold Get, Get_read, Get_evict, time.After. rewrite Hi.
  replace (expiresAt item <? now1) with true by (symmetry; by apply Z.ltb_lt).
  by replace (expiresAt item <? now2) with true by (symmetry; apply Z.ltb_lt; lia).
Qed.

End cache_expiry.

Section cache_claims.

Import cache.

Context `{MapRange}.

(** C2. A cache built with a positive capacity and used through any
    sequence of its writing critical sections ([Set], [Delete], [Clear], the
    eviction of [Get], the sweep of [cleanup]) never holds more entries than
    its capacity. In every state so reached, [Set] on a key that is not
    resident while the cache is full first evicts exactly one resident
    entry, and [Set] on a resident key leaves every other entry as it is. *)
Theorem Size_never_exceeds_capacity (ttl cleanupInterval : time.Duration)
    (capacity : Z) (ops : list Op) :
  0 < capacity →
  let c := run ops (New ttl cleanupInterval capacity) in
  Size c <= capacity
  ∧ (∀ seed now id doc,
       items c !! id = None → Size c = capacity →
       ∃ key item,
         items c !! key = Some item ∧ key ≠ id
         ∧ items (evictRandom seed c) = delete key (items c)
         ∧ items (Set_ seed now id doc c)
           = <[id := mkCacheItem doc (time.Add now ttl)]> (delete key (items c))
         ∧ Size (Set_ seed now id doc c) = capacity)
  ∧ (∀ seed now id doc,
       is_Some (items c !! id) →
       (∀ key, key ≠ id → items (Set_ seed now id doc c) !! key = items c !! key)
       ∧ Size (Set_ seed now id doc c) = Size c).
Proof.
  intros Hcap c.
  destruct (run_bound ops (New ttl cleanupInterval capacity)) as [Hc Hl].
  { done. } { cbn. unfold len_items. cbn. rewrite map_size_empty. lia. }
  fold c in Hc, Hl. cbn in Hc, Hl.
  assert (Httl : cache.ttl c = ttl) by (subst c; by rewrite run_ttl).
  split; [unfold Size; lia|]. split.
  - intros seed now id doc Hid Hfull. unfold Size in *.
    destruct (Set_new_key_full seed now id doc c)
      as (key & item & Hk & Hne & Hev & Hset & Hsz); [done|lia|lia|].
    exists key, item. rewrite Hev, Hset, Hsz, Httl. done.
  - intros seed now id doc Hid. unfold Size.
    destruct (Set_resident_key seed now id doc c) as (_ & Hk & Hsz); done.
Qed.

End cache_claims.

Section cache_claims_expiry.

Import cache.

Context `{MapRange}.

(** C3. [Get] answers not-found when the key has no entry and when its
    entry's expiry has passed; in the second case the entry is gone from
    the map when [Get] returns. Whenever [Get] answers found, the document
    is the one stored under the key and its expiry is not in the past.
    [now1 <= now2] are the two readings of the clock that [Get] takes. *)
Theorem Get_never_returns_expired (now1 now2 : time.Time) (id : string)
    (c : Cache) :
  now1 <= now2 →
  (items c !! id = None → Get now1 now2 id c = ((None, false), c))
  ∧ (∀ item, items c !! id = Some item → expiresAt item < now1 →
       (Get now1 now2 id c).1 = (None, false)
       ∧ items (Get now1 now2 id c).2 = delete id (items c)
       ∧ items (Get now1 now2 id c).2 !! id = None)
  ∧ (∀ doc c', Get now1 now2 id c = ((doc, true), c') →
       ∃ item, items c !! id = Some item ∧ document item = doc
               ∧ now1 <= expiresAt item ∧ c' = c).
Proof.
  intros Hmono. split; [|split].
  - intros Hn. unfold Get, Get_read. by rewrite Hn.
  - intros item Hi Hlt. rewrite (Get_expired now1 now2 id c item) by done.
    cbn. split; [done|]. split; [done|]. apply lookup_delete_eq.
  - intros doc c'. unfold Get, Get_read, time.After.
    destruct (items c !! id) as [item|] eqn:Hi; [|done].
    destruct (expiresAt item <? now1) eqn:Hlt; [done|].
    intros [= <- <-]. exists item. apply Z.ltb_ge in Hlt. done.
Qed.

(** With other goroutines between the two critical sections of [Get]:
    whatever the map holds when the second one runs, no expired entry of the
    key is left behind. *)
Lemma Get_evict_leaves_no_expired (now : time.Time) (id : string) (c : Cache)
    (item : cacheItem) :
  items (Get_evict now id c) !! id = Some item → now <= expiresAt item.
Proof.
  rewrite Get_evict_lookup, decide_True by done. unfold live, time.After.
  destruct (items c !! id) as [item'|]; simpl; [|done].
  destruct (expiresAt item' <? now) eqn:Hlt; [done|].
  intros [= <-]. by apply Z.ltb_ge.
Qed.

(** C4 (as amended). In a cache with [ttl = 0], [Set] followed by [Get] of
    the same key answers not-found as soon as the clock has advanced between
    the two. *)
Theorem Set_Get_ttl_zero (seed : nat) (t now1 now2 : time.Time) (id : string)
    (doc : DocPtr) (c : Cache) :
  ttl c = 0 → t < now1 → now1 <= now2 →
  (Get now1 now2 id (Set_ seed t id doc c)).1 = (None, false).
Proof.
  intros Httl Hlt Hmono.
  rewrite (Get_expired now1 now2 id _ (mkCacheItem doc (time.Add t (ttl c))));
    [done | done | apply Set_ttl | cbn; unfold time.Add; lia].
Qed.

(** C8. After one run of [cleanup] at time [now], an entry whose expiry is
    before [now] is absent, and an entry whose expiry has not passed is
    still there. *)
Theorem cleanup_removes_expired (seed : nat) (now : time.Time) (c : Cache)
    (id : string) (item : cacheItem) :
  items c !! id = Some item →
  (expiresAt item < now → items (cleanup seed now c) !! id = None)
  ∧ (now <= expiresAt item → items (cleanup seed now c) !! id = Some item).
Proof.
  intros Hi. destruct (cleanup_passes seed now c c id item Hi) as [Hgone Hstay].
  split; [by apply Hgone | exact Hstay].
Qed.

End cache_claims_expiry.

(** *** The claims on a concrete cache *)


Lemma Size_never_exceeds_capacity_witness : cache.Size cache_ab <= 1.
Proof.
  apply (Size_never_exceeds_capacity (H := listRange) 5 60 1
           [cache.OpSet 0 10 "a" (Some 1%nat); cache.OpSet 0 20 "b" (Some 2%nat)]).
  lia.
Defined.

Lemma Get_never_returns_expired_witness :
  (cache.Get 26 27 "b" cache_ab).1 = (None, false)
  ∧ cache.items (cache.Get 26 27 "b" cache_ab).2 !! "b" = None.
Proof.
  destruct (Get_never_returns_expired 26 27 "b" cache_ab) as (_ & Hexp & _);
    [lia|].
  destruct (Hexp (cache.mkCacheItem (Some 2%nat) 25)) as (Hres & _ & Hgone);
    [reflexivity | simpl; lia | split; assumption].
Defined.

Lemma Set_Get_ttl_zero_witness :
  (cache.Get 11 12 "a"
     (cache.Set_ (H := listRange) 0 10 "a" (Some 1%nat) (cache.New 0 60 1))).1
  = (None, false).
Proof.
  apply (Set_Get_ttl_zero (H := listRange) 0 10 11 12 "a" (Some 1%nat)
           (cache.New 0 60 1)); [reflexivity | lia | lia].
Defined.

(** C4, as stated, fails: [Get] at the very clock reading at which [Set]
    stamped the entry still finds it, because [time.After] is strict. *)
Lemma Set_Get_ttl_zero_same_instant :
  cache.Get 10 10 "a"
    (cache.Set_ (H := listRange) 0 10 "a" (Some 1%nat) (cache.New 0 60 1))
  = ((Some 1%nat, true),
     cache.Set_ (H := listRange) 0 10 "a" (Some 1%nat) (cache.New 0 60 1)).
Proof. reflexivity. Qed.

Lemma cleanup_removes_expired_witness :
  cache.items (cache.cleanup (H := listRange) 0 26 cache_ab) !! "b" = None.
Proof.
  apply (cleanup_removes_expired (H := listRange) 0 26 cache_ab "b"
           (cache.mkCacheItem (Some 2%nat) 25)); [reflexivity | simpl; lia].
Defined.

(** ** [sort.Slice] *)

Section sort_instances.

Context {A : Type} (less : A → A → bool).

Lemma not_after_total : StrictWeak less → Total (not_after less).
Proof.
  intros [Hasym _] a b. unfold not_after.
  destruct (less b a) eqn:Hba; [right; by apply Hasym | by left].
Qed.

Lemma not_after_trans : StrictWeak less → Transitive (not_after less).
Proof. intros [_ Hneg] a b c Hab Hbc. unfold not_after in *. eauto. Qed.


Lemma mergeSort_perm x : mergeSort less x ≡ₚ x.
Proof. apply merge_sort_Permutation. Qed.

Lemma mergeSort_sorted x :
  StrictWeak less → StronglySorted (λ a b, less b a = false) (mergeSort less x).
Proof.
  intros Hsw. pose proof (not_after_total Hsw). pose proof (not_after_trans Hsw).
  apply (StronglySorted_merge_sort (not_after less)).
Qed.

End sort_instances.

(** An implementation that keeps the promises of [sort.Slice]. *)
Definition mergeSortSlice : SortSlice :=
  {| sort_Slice := @mergeSort;
     sort_Slice_perm := @mergeSort_perm;
     sort_Slice_sorted := @mergeSort_sorted |}.

(** ** [processDocument] on values *)

Section processDocument_facts.

Import model service.

Context `{SortSlice}.

Lemma less_strict_weak : StrictWeak less.
Proof. split; unfold less; intros; lia. Qed.


Lemma sort_Slice_descending (x : list FirstLevelItem) :
  descending (sort_Slice less x).
Proof.
  unfold descending.
  pose proof (sort_Slice_sorted _ less x less_strict_weak) as Hs.
  induction Hs as [|a l Hs IH Hall]; constructor; [done|].
  eapply Forall_impl; [exact Hall|]. intros b. unfold less. lia.
Qed.

(** The processed document: the fields of the input, no item lost or
    added, items in descending order of [Sort]. *)
Lemma processDocument_spec (doc : Doc) :
  let doc' := processDocument doc in
  ID doc' = ID doc ∧ Title doc' = Title doc
  ∧ Description doc' = Description doc
  ∧ CreatedAt doc' = CreatedAt doc ∧ UpdatedAt doc' = UpdatedAt doc
  ∧ Internal doc' = Internal doc
  ∧ (Items doc = None ↔ Items doc' = None)
  ∧ elems (Items doc') ≡ₚ elems (Items doc)
  ∧ descending (elems (Items doc')).
Proof.
  unfold processDocument. destruct doc as [i t de ca ua [x|] int]; cbn.
  - repeat split; try done. apply sort_Slice_perm. apply sort_Slice_descending.
  - repeat split; try done. constructor.
Qed.

End processDocument_facts.

(** ** The parallel processor: collecting and assembling the results *)

Section collect_facts.

Import model service.

Lemma collect_fold (l : list (nat * Doc)) (m : gmap nat Doc) :
  NoDup l.*1 → (∀ k, k ∈ l.*1 → m !! k = None) →
  let m' := foldl (λ processedMap r, <[r.1 := r.2]> processedMap) m l in
  size m' = (size m + length l)%nat
  ∧ ∀ i v, m' !! i = Some v ↔ m !! i = Some v ∨ (i, v) ∈ l.
Proof.
  revert m. induction l as [|[k d] l IH]; intros m Hnd Hfresh; simpl.
  - split; [lia|]. intros i v. split; [by left|]. intros [?|Hin]; [done|].
    by apply elem_of_nil in Hin.
  - simpl in Hnd. apply NoDup_cons in Hnd as [Hk Hnd].
    destruct (IH (<[k:=d]> m) Hnd) as [Hsz Hlk].
    { intros k' Hk'. rewrite lookup_insert_ne; [|intros ->; done].
      apply Hfresh. simpl. by right. }
    split.
    + rewrite Hsz, map_size_insert_None by (apply Hfresh; simpl; left). lia.
    + intros i v. rewrite Hlk, elem_of_cons. split.
      * intros [Hi|Hin]; [|by right; right].
        destruct (decide (k = i)) as [->|Hne].
        -- rewrite lookup_insert_eq in Hi. inversion Hi; subst. right; by left.
        -- rewrite lookup_insert_ne in Hi by done. by left.
      * intros [Hi|[Heq|Hin]]; [| |by right].
        -- left. rewrite lookup_insert_ne; [done|]. intros ->.
           rewrite Hfresh in Hi; [done|]. simpl. left.
        -- inversion Heq; subst. left. apply lookup_insert_eq.
Qed.

(** With one result per index, the map holds exactly the results. *)
Lemma collect_spec (results : list (nat * Doc)) :
  NoDup results.*1 →
  size (collect results) = length results
  ∧ ∀ i v, collect results !! i = Some v ↔ (i, v) ∈ results.
Proof.
  intros Hnd. destruct (collect_fold results ∅ Hnd) as [Hsz Hlk].
  { intros. apply lookup_empty. }
  fold (collect results) in Hsz, Hlk. rewrite map_size_empty in Hsz.
  split; [done|]. intros i v. rewrite Hlk, lookup_empty.
  split; [intros [?|?]; done | intros; by right].
Qed.

Context `{SortSlice}.
Variable documents : list Doc.

Lemma expected_lookup (i : nat) :
  expected documents !! i = (λ d, (i, processDocument d)) <$> documents !! i.
Proof. apply list_lookup_imap. Qed.

Lemma expected_indices : (expected documents).*1 = seq 0 (length documents).
Proof.
  apply list_eq. intros i. rewrite list_lookup_fmap, expected_lookup.
  destruct (documents !! i) as [d|] eqn:Hd; simpl.
  - symmetry. apply lookup_seq. split; [done|]. by eapply lookup_lt_Some.
  - symmetry. apply lookup_ge_None. rewrite length_seq.
    by apply lookup_ge_None.
Qed.

Lemma elem_of_expected (i : nat) (v : Doc) :
  (i, v) ∈ expected documents ↔ ∃ d, documents !! i = Some d ∧ v = processDocument d.
Proof.
  unfold expected. rewrite elem_of_lookup_imap. split.
  - intros (j & d & [= -> ->] & Hd). eauto.
  - intros (d & Hd & ->). eauto.
Qed.

(** When every task has sent its result, in whatever order, the call
    returns the processed documents in input order. *)
Lemma finish_all_results (results : list (nat * Doc)) :
  results ≡ₚ expected documents →
  finish false results (length documents) = Ok (processDocument <$> documents).
Proof.
  intros Hperm. unfold finish.
  destruct (collect_spec results) as [Hsz Hlk].
  { rewrite Hperm, expected_indices. apply NoDup_seq. }
  assert (Hlen : length results = length documents).
  { rewrite Hperm. unfold expected. apply length_imap. }
  rewrite bool_decide_eq_false_2 by lia.
  assert (Has : assemble (collect results) (length documents)
                = Some (processDocument <$> documents)); [|by rewrite Has].
  unfold assemble. apply mapM_Some, Forall2_same_length_lookup.
  split; [by rewrite length_seq, length_fmap|].
  intros i j v Hj Hv. apply lookup_seq in Hj as [-> _].
  apply list_lookup_fmap_Some in Hv as (d & -> & Hd).
  apply Hlk. rewrite Hperm. apply elem_of_expected. eauto.
Qed.

End collect_facts.

(** ** The parallel processor: what holds in every reachable state *)

Section processor_invariant.

Import model service.

Context `{SortSlice}.
Variable NumCPU : nat.
Variable documents : list Doc.

Lemma length_expected : length (expected documents) = length documents.
Proof. apply length_imap. Qed.

Lemma step_inv (ev : Event) (s s' : State) :
  step NumCPU documents ev s = Some s' → inv documents s → inv documents s'.
Proof.
  intros Hstep Hinv. destruct s as [p d sm st rl rs]. unfold inv in *.
  destruct ev; cbn -[Nat.ltb] in Hstep.
  - (* the context is cancelled *)
    destruct p; try done; destruct d; simplify_eq; cbn in *;
      (split; [done | apply Hinv]).
  - (* the main goroutine *)
    destruct p; cbn in *.
    + case_bool_decide as Hlen; simplify_eq; cbn.
      * apply nil_length_inv in Hlen. subst documents.
        destruct d; [by right | done].
      * split; [|done]. intros Hd. by apply Hinv.
    + destruct (documents !! i) as [doc|] eqn:Hi.
      * destruct d; simplify_eq; cbn; (split; [|done]); [done|].
        intros _. by apply Hinv.
      * simplify_eq; cbn. split; [|done]. intros Hd.
        apply lookup_ge_None in Hi.
        rewrite take_ge by (rewrite length_expected; lia).
        rewrite <- (take_ge (expected documents) i)
          by (rewrite length_expected; lia).
        by apply Hinv.
    + done.
    + destruct (documents !! i) as [doc|] eqn:Hi; simplify_eq; cbn.
      split; [|done]. intros Hd.
      rewrite fmap_app, app_assoc. cbn.
      erewrite take_S_r by (rewrite expected_lookup, Hi; done).
      f_equiv; [by apply Hinv | done].
    + destruct st; destruct rl; simplify_eq; cbn.
      split; [|done]. intros Hd. by apply Hinv.
    + simplify_eq; cbn. destruct d; cbn; [by left|].
      apply finish_all_results. destruct Hinv as [Hp Hc].
      destruct Hc as [-> _]; [done|]. specialize (Hp eq_refl). cbn in Hp.
      by rewrite app_nil_r, take_ge in Hp by (rewrite length_expected; lia).
    + done.
  - (* a slot of [sem] is taken *)
    destruct p; try done. destruct (sm <? NumCPU)%nat; simplify_eq; cbn in *.
    split; [apply Hinv | done].
  - (* [ctx.Done()] wins the [select] *)
    destruct p; try done. destruct d; simplify_eq; cbn in *. split; done.
  - (* a task runs its [select] *)
    destruct (st !! k) as [[idx doc]|] eqn:Hk; simplify_eq; cbn in *.
    assert (Hmove : d = false →
              (rs ++ [(idx, processDocument doc)]) ++ (tag <$> delete k st)
              ≡ₚ rs ++ (tag <$> st)).
    { intros _. rewrite <- app_assoc. f_equiv.
      rewrite (delete_Permutation st k (idx, doc)) at 2 by done. done. }
    destruct p; cbn in *; try exact Hinv;
      (split; [intros ->; rewrite Hmove by done; by apply Hinv|]); try done.
    intros _. destruct Hinv as [_ Hc]. destruct Hc as [-> _]; done.
  - (* a task leaves *)
    destruct rl as [|rl]; [done|]. destruct sm as [|sm]; simplify_eq; cbn in *.
    destruct p; cbn in *; try exact Hinv; (split; [apply Hinv|]); try done.
    intros _. destruct Hinv as [_ Hc]. destruct Hc as [_ ?]; done.
Qed.

Lemma run_app (evs1 evs2 : list Event) (s : State) :
  run NumCPU documents (evs1 ++ evs2) s
  = s' ← run NumCPU documents evs1 s; run NumCPU documents evs2 s'.
Proof.
  revert s. induction evs1 as [|ev evs1 IH]; intros s; simpl; [done|].
  destruct (step NumCPU documents ev s); simpl; [apply IH | done].
Qed.

(** A property kept by every step holds all along a run. *)
Lemma run_preserves (P : State → Prop) :
  (∀ ev s s', step NumCPU documents ev s = Some s' → P s → P s') →
  ∀ evs s s', run NumCPU documents evs s = Some s' → P s → P s'.
Proof.
  intros Hstep evs. induction evs as [|ev evs IH]; intros s s' Hrun Hs; simpl in *.
  - by simplify_eq.
  - destruct (step NumCPU documents ev s) as [s1|] eqn:H1; simpl in *; [|done].
    eapply IH; [done|]. by eapply Hstep.
Qed.

(** Only the cancellation changes [done]. *)
Lemma step_done (ev : Event) (s s' : State) :
  step NumCPU documents ev s = Some s' → ev ≠ EvCancel → done s' = done s.
Proof.
  intros Hstep Hev. destruct s as [p d sm st rl rs].
  destruct ev; [done|..]; cbn -[Nat.ltb] in Hstep;
    repeat case_match; by simplify_eq.
Qed.

Lemma run_done (evs : list Event) (s s' : State) :
  run NumCPU documents evs s = Some s' → EvCancel ∉ evs → done s' = done s.
Proof.
  revert s. induction evs as [|ev evs IH]; intros s Hrun Hno; simpl in *.
  - by simplify_eq.
  - destruct (step NumCPU documents ev s) as [s1|] eqn:H1; simpl in *; [|done].
    rewrite (IH s1 Hrun) by (intros ?; apply Hno; by right).
    eapply step_done; [done|]. intros ->. apply Hno. left.
Qed.

Lemma processDocumentsParallel_Some (cancelled : bool) (evs : list Event)
    (r : Result) :
  processDocumentsParallel NumCPU documents cancelled evs = Some r
  ↔ ∃ s, run NumCPU documents evs (init cancelled) = Some s ∧ pc s = Returned r.
Proof.
  unfold processDocumentsParallel. split.
  - destruct (run NumCPU documents evs (init cancelled)) as [s|]; [|done].
    cbn. destruct (pc s) eqn:Hpc; try done. intros [= ->]. eauto.
  - intros (s & -> & Hpc). cbn. by rewrite Hpc.
Qed.

Lemma inv_init (cancelled : bool) : inv documents (init cancelled).
Proof. unfold inv, init. cbn. split; done. Qed.

End processor_invariant.

(** ** The parallel processor: runs *)

Section processor_runs.

Import model service.

Context `{SortSlice}.
Variable NumCPU : nat.
Variable documents : list Doc.


Lemma step_idle (ev : Event) (s s' : State) :
  documents ≠ [] → step NumCPU documents ev s = Some s' → idle s → idle s'.
Proof.
  intros Hne Hstep (Hd & Hsem & Hst & Hrl & Hrs & Hpc).
  destruct s as [p d sm st rl rs]. cbn in *. subst.
  destruct ev; cbn -[Nat.ltb] in Hstep.
  - by destruct p.
  - destruct Hpc as [->|[->|[->|[->| ->]]]]; cbn in Hstep.
    + case_bool_decide as Hlen; simplify_eq.
      * by apply nil_length_inv in Hlen.
      * unfold idle; cbn. tauto.
    + destruct (documents !! 0%nat); simplify_eq; unfold idle; cbn; tauto.
    + simplify_eq. unfold idle; cbn. tauto.
    + simplify_eq. unfold idle; cbn. tauto.
    + done.
  - destruct Hpc as [->|[->|[->|[->| ->]]]]; done.
  - destruct Hpc as [->|[->|[->|[->| ->]]]]; done.
  - done.
  - done.
Qed.

(** The run of a call that finds the context done: the loop is left at
    once, there is nothing to wait for, the check fails. *)
Lemma run_cancelled_before :
  documents ≠ [] →
  run NumCPU documents [EvMain; EvMain; EvMain; EvMain] (init true)
  = Some (mkState (Returned (Fail ctxErr)) true 0 [] 0 []).
Proof.
  intros Hne. destruct documents as [|doc rest] eqn:Hdocs; [done|].
  reflexivity.
Qed.

(** One task admitted, run and released, with no other task around. *)
Lemma run_one_task (i : nat) (doc : Doc) (rs : list (nat * Doc)) :
  (0 < NumCPU)%nat → documents !! i = Some doc →
  run NumCPU documents [EvMain; EvSelectSem; EvMain; EvTask 0; EvRelease]
      (mkState (LoopHead i) false 0 [] 0 rs)
  = Some (mkState (LoopHead (S i)) false 0 [] 0
                  (rs ++ [(i, processDocument doc)])).
Proof.
  intros Hcpu Hi. cbn -[Nat.ltb]. rewrite Hi. cbn -[Nat.ltb].
  replace (0 <? NumCPU)%nat with true by (symmetry; by apply Nat.ltb_lt).
  cbn. rewrite Hi. reflexivity.
Qed.

Lemma run_tasks_one_by_one (k i : nat) (rs : list (nat * Doc)) :
  (0 < NumCPU)%nat → (i + k ≤ length documents)%nat →
  ∃ rs',
    run NumCPU documents
        (concat (replicate k [EvMain; EvSelectSem; EvMain; EvTask 0; EvRelease]))
        (mkState (LoopHead i) false 0 [] 0 rs)
    = Some (mkState (LoopHead (i + k)) false 0 [] 0 rs').
Proof.
  intros Hcpu. revert i rs. induction k as [|k IH]; intros i rs Hle.
  - exists rs. by rewrite Nat.add_0_r.
  - destruct (lookup_lt_is_Some_2 documents i) as [doc Hi]; [lia|].
    destruct (IH (S i) (rs ++ [(i, processDocument doc)])) as [rs' Hrun]; [lia|].
    exists rs'. cbn [replicate concat]. rewrite run_app.
    rewrite (run_one_task i doc rs Hcpu Hi). cbn [mbind option_bind].
    rewrite Hrun. by replace (i + S k)%nat with (S i + k)%nat by lia.
Qed.

(** With at least one CPU and the context never done, the schedule that
    takes the documents one by one brings the call to its return. *)
Lemma run_one_by_one :
  (0 < NumCPU)%nat →
  ∃ s r, run NumCPU documents (one_by_one (length documents)) (init false) = Some s
         ∧ pc s = Returned r ∧ done s = false.
Proof.
  intros Hcpu. unfold one_by_one. destruct (length documents) as [|n] eqn:Hlen.
  { cbn. rewrite bool_decide_eq_true_2 by done. cbn. eauto. }
  rewrite run_app.
  assert (Hentry : run NumCPU documents [EvMain] (init false)
                   = Some (mkState (LoopHead 0) false 0 [] 0 [])).
  { cbn. rewrite bool_decide_eq_false_2 by lia. reflexivity. }
  rewrite Hentry. cbn [mbind option_bind]. rewrite run_app.
  destruct (run_tasks_one_by_one (S n) 0 [] Hcpu) as [rs' Hrun]; [lia|].
  rewrite Hrun. cbn [mbind option_bind]. cbn.
  rewrite lookup_ge_None_2 by lia. cbn. eauto.
Qed.

End processor_runs.

(** ** The parallel processor: the claims *)


Section processor_claims.

Import model service.

Context `{SortSlice}.
Variable NumCPU : nat.
Variable documents : list Doc.

Lemma run_inv (cancelled : bool) (evs : list Event) (s : State) :
  run NumCPU documents evs (init cancelled) = Some s → inv documents s.
Proof.
  intros Hrun.
  eapply (run_preserves NumCPU documents (inv documents)); [|done|apply inv_init].
  apply step_inv.
Qed.

(** C1 (as amended). Whenever a call returns documents, it returns as many
    as it was given, the one at position [i] being the processed form of
    the input at position [i], whatever the order in which the tasks ran;
    a call during which the context is never done does return them, and
    with at least one CPU such a call exists. A processed document has the
    fields and the items of its input, the items in descending order of
    [Sort]. (Nothing is promised about the order of items with equal
    [Sort].) *)
Theorem processDocumentsParallel_keeps_order :
  (∀ cancelled evs docs',
     processDocumentsParallel NumCPU documents cancelled evs = Some (Ok docs') →
     docs' = processDocument <$> documents)
  ∧ (∀ evs r,
       EvCancel ∉ evs →
       processDocumentsParallel NumCPU documents false evs = Some r →
       r = Ok (processDocument <$> documents))
  ∧ ((0 < NumCPU)%nat →
     processDocumentsParallel NumCPU documents false
       (one_by_one (length documents))
     = Some (Ok (processDocument <$> documents)))
  ∧ length (processDocument <$> documents) = length documents
  ∧ (∀ i doc, documents !! i = Some doc →
              (processDocument <$> documents) !! i = Some (processDocument doc))
  ∧ (∀ doc,
       let doc' := processDocument doc in
       ID doc' = ID doc ∧ Title doc' = Title doc
       ∧ Description doc' = Description doc
       ∧ CreatedAt doc' = CreatedAt doc ∧ UpdatedAt doc' = UpdatedAt doc
       ∧ Internal doc' = Internal doc
       ∧ (Items doc = None ↔ Items doc' = None)
       ∧ elems (Items doc') ≡ₚ elems (Items doc)
       ∧ descending (elems (Items doc'))).
Proof.
  split; [|split; [|split; [|split; [|split]]]].
  - intros cancelled evs docs' Hcall.
    apply processDocumentsParallel_Some in Hcall as (s & Hrun & Hpc).
    pose proof (run_inv cancelled evs s Hrun) as Hinv.
    unfold inv in Hinv. rewrite Hpc in Hinv.
    destruct (done s); [|by simplify_eq].
    destruct Hinv as [?|[-> ?]]; by simplify_eq.
  - intros evs r Hno Hcall.
    apply processDocumentsParallel_Some in Hcall as (s & Hrun & Hpc).
    pose proof (run_inv false evs s Hrun) as Hinv.
    pose proof (run_done NumCPU documents evs _ s Hrun Hno) as Hd.
    unfold inv in Hinv. by rewrite Hpc, Hd in Hinv.
  - intros Hcpu. destruct (run_one_by_one NumCPU documents Hcpu)
      as (s & r & Hrun & Hpc & Hd).
    apply processDocumentsParallel_Some. exists s. split; [done|].
    rewrite Hpc. f_equal.
    pose proof (run_inv false _ s Hrun) as Hinv.
    unfold inv in Hinv. by rewrite Hpc, Hd in Hinv.
  - apply length_fmap.
  - intros i doc Hi. by rewrite list_lookup_fmap, Hi.
  - intros doc. apply processDocument_spec.
Qed.

(** A call never returns the "processing incomplete" error, and never
    panics: when the context is not done every task has sent its result. *)
Lemma incomplete_unreachable (cancelled : bool) (evs : list Event)
    (r : Result) :
  processDocumentsParallel NumCPU documents cancelled evs = Some r →
  r = Fail ctxErr ∨ r = Ok (processDocument <$> documents).
Proof.
  intros Hcall.
  apply processDocumentsParallel_Some in Hcall as (s & Hrun & Hpc).
  pose proof (run_inv cancelled evs s Hrun) as Hinv.
  unfold inv in Hinv. rewrite Hpc in Hinv.
  destruct (done s); [|by right].
  destruct Hinv as [?|[-> ->]]; [by left | by right].
Qed.

(** C5 (as amended). At the check that follows the wait, when the number
    of collected results differs from the number of documents the call
    returns no documents: it returns the context's error if the context is
    done, and the "processing incomplete" error otherwise. *)
Theorem count_mismatch_returns_error (s : State) :
  pc s = CheckCtx →
  size (collect (results s)) ≠ length documents →
  ∃ s', step NumCPU documents EvMain s = Some s'
        ∧ pc s' = Returned
                    (Fail (if done s then ctxErr
                           else incompleteErr (length documents)
                                              (size (collect (results s))))).
Proof.
  intros Hpc Hne. destruct s as [p d sm st rl rs]. cbn in *. subst p.
  eexists. split; [reflexivity|]. cbn. unfold finish.
  destruct d; [done|]. by rewrite bool_decide_eq_true_2.
Qed.

(** C6 (as amended). A call on a list that is not empty, begun with the
    context done, starts no task and returns the context's error and no
    documents; and whenever a call on such a list has returned with the
    context done by the time of its check, it has returned the context's
    error and no documents. *)
Theorem cancelled_call_returns_error :
  documents ≠ [] →
  (∀ evs s,
     run NumCPU documents evs (init true) = Some s →
     starting s = [] ∧ releasing s = 0%nat ∧ results s = [] ∧ sem s = 0%nat)
  ∧ (∀ evs r,
       processDocumentsParallel NumCPU documents true evs = Some r →
       r = Fail ctxErr)
  ∧ processDocumentsParallel NumCPU documents true
      [EvMain; EvMain; EvMain; EvMain] = Some (Fail ctxErr)
  ∧ (∀ cancelled evs s r,
       run NumCPU documents evs (init cancelled) = Some s →
       pc s = Returned r → done s = true → r = Fail ctxErr).
Proof.
  intros Hne.
  assert (Hidle : ∀ evs s, run NumCPU documents evs (init true) = Some s → idle s).
  { intros evs s Hrun.
    eapply (run_preserves NumCPU documents idle); [|done|].
    - intros ev s1 s2. by apply step_idle.
    - unfold idle, init. cbn. tauto. }
  split; [|split; [|split]].
  - intros evs s Hrun. destruct (Hidle evs s Hrun) as (_ & ? & ? & ? & ? & _).
    done.
  - intros evs r Hcall.
    apply processDocumentsParallel_Some in Hcall as (s & Hrun & Hr).
    destruct (Hidle evs s Hrun) as (_ & _ & _ & _ & _ & Hpc).
    rewrite Hr in Hpc. destruct Hpc as [?|[?|[?|[?|?]]]]; by simplify_eq.
  - unfold processDocumentsParallel. by rewrite run_cancelled_before.
  - intros cancelled evs s r Hrun Hpc Hd.
    pose proof (run_inv cancelled evs s Hrun) as Hinv.
    unfold inv in Hinv. rewrite Hpc, Hd in Hinv.
    by destruct Hinv as [?|[? _]].
Qed.

(** On the empty list the call returns the list at once, whether or not
    the context is done. *)
Lemma empty_list_returns_at_once (cancelled : bool) :
  documents = [] →
  processDocumentsParallel NumCPU documents cancelled [EvMain] = Some (Ok []).
Proof. intros ->. reflexivity. Qed.

End processor_claims.

(** *** The claims on concrete calls *)


Lemma processDocumentsParallel_keeps_order_witness :
  test_processed = service.processDocument (H := mergeSortSlice) <$> test_documents.
Proof.
  apply (proj1 (processDocumentsParallel_keeps_order
                  (H := mergeSortSlice) 2 test_documents)
           false second_task_first).
  vm_compute. reflexivity.
Defined.


(** C1, as stated, fails: [sort.Slice] need not keep items with the same
    [Sort] in their order, and then neither does the call. Here the twelve
    items with [Sort] 1 come out in another order than they went in. *)
Lemma equal_keys_may_be_reordered :
  let out := service.processDocument (H := mergeSortSlice) thirteen_items in
  service.processDocumentsParallel (H := mergeSortSlice) 1 [thirteen_items]
    false (service.one_by_one 1) = Some (service.Ok [out])
  ∧ model.item_ID <$> model.elems (model.Items out)
    = ["item-3"; "item-12"; "item-8"; "item-9"; "item-10"; "item-11";
       "item-0"; "item-1"; "item-2"; "item-4"; "item-5"; "item-6"; "item-7"]
  ∧ ¬ same_order_among_equal (model.elems (model.Items thirteen_items))
                             (model.elems (model.Items out)).
Proof.
  split; [|split].
  - vm_compute. reflexivity.
  - reflexivity.
  - intros Hsame. specialize (Hsame 1). vm_compute in Hsame. discriminate.
Qed.

Lemma count_mismatch_returns_error_witness :
  ∃ s', service.step (H := mergeSortSlice) 1 [tied_document] service.EvMain
          (service.mkState service.CheckCtx true 0 [] 0 []) = Some s'
        ∧ service.pc s' = service.Returned (service.Fail ctxErr).
Proof.
  apply (count_mismatch_returns_error (H := mergeSortSlice) 1 [tied_document]
           (service.mkState service.CheckCtx true 0 [] 0 [])).
  - reflexivity.
  - vm_compute. lia.
Defined.

(** C5, as stated, fails: a call begun with the context done collects no
    result for its one document, and returns the context's error, not the
    "processing incomplete" error. *)
Lemma count_mismatch_after_cancel :
  ∃ s s',
    service.run (H := mergeSortSlice) 1 [tied_document]
      [service.EvMain; service.EvMain; service.EvMain] (service.init true) = Some s
    ∧ service.pc s = service.CheckCtx
    ∧ size (service.collect (service.results s)) = 0%nat
    ∧ length [tied_document] = 1%nat
    ∧ service.step (H := mergeSortSlice) 1 [tied_document] service.EvMain s = Some s'
    ∧ service.pc s' = service.Returned (service.Fail ctxErr)
    ∧ service.pc s' ≠ service.Returned (service.Fail (incompleteErr 1 0)).
Proof.
  eexists _, _. split; [reflexivity|]. cbn.
  repeat split; try reflexivity. discriminate.
Qed.

Lemma cancelled_call_returns_error_witness :
  service.processDocumentsParallel (H := mergeSortSlice) 1 [tied_document] true
    [service.EvMain; service.EvMain; service.EvMain; service.EvMain]
  = Some (service.Fail ctxErr).
Proof.
  apply (cancelled_call_returns_error (H := mergeSortSlice) 1 [tied_document]).
  discriminate.
Defined.

(** C6, as stated, fails: on the empty list a call begun with the context
    done returns the empty list and no error. *)
Lemma cancelled_call_on_empty_list :
  service.processDocumentsParallel (H := mergeSortSlice) 1 [] true
    [service.EvMain]
  = Some (service.Ok []).
Proof. reflexivity. Qed.

(** The [break] at line 174 leaves the [select], not the loop. When the
    context is cancelled between the test at line 166 and the [select],
    and the [select] takes the [ctx.Done()] branch, the task is started
    all the same, without a value in [sem]; its deferred [<-sem] then
    blocks for ever, and so does [wg.Wait()]. *)
Lemma select_break_starts_task :
  ∃ s, service.run (H := mergeSortSlice) 1 [tied_document]
         [service.EvMain; service.EvMain; service.EvCancel;
          service.EvSelectDone; service.EvMain; service.EvMain;
          service.EvTask 0] (service.init false) = Some s
       ∧ service.pc s = service.Wait ∧ service.releasing s = 1%nat
       ∧ service.sem s = 0%nat
       ∧ service.deadlocked (H := mergeSortSlice) 1 [tied_document] s.
Proof.
  eexists. split; [reflexivity|]. cbn. repeat split; try done.
  intros ev. destruct ev; try reflexivity.
Qed.

(** ** [processDocument] on the heap *)

Section heap_facts.

Import model service.

Context `{SortSlice}.

Lemma length_load_valid (h : Heap) (hd : sliceHdr) :
  valid_slice h (Some hd) → length (load h (Some hd)) = len hd.
Proof.
  intros (a & Ha & Hle). cbn. rewrite Ha. cbn.
  rewrite length_take, length_drop. lia.
Qed.

(** A document without items: the copy of the struct is all there is. *)
Lemma processDocumentH_nil (h : Heap) (doc : loc) (d : Document slice) :
  docs h !! doc = Some d → Items d = None →
  processDocumentH h doc
  = Some (mkHeap (arrays h) (<[fresh (dom (docs h)) := d]> (docs h)),
          fresh (dom (docs h))).
Proof.
  intros Hd Hnil. unfold processDocumentH. rewrite Hd. cbn. rewrite !Hnil. cbn.
  reflexivity.
Qed.

Lemma store_whole (A : gmap loc (list FirstLevelItem))
    (D : gmap loc (Document slice)) (a : loc) (old v : list FirstLevelItem) (n : nat) :
  length old = length v →
  store (mkHeap (<[a := old]> A) D) (Some (mkSlice a 0 n)) v
  = mkHeap (<[a := v]> A) D.
Proof.
  intros Hlen. unfold store. cbn [arrays arr off docs].
  rewrite lookup_insert_eq. cbn [take app].
  rewrite Nat.add_0_l, drop_ge by lia.
  by rewrite app_nil_r, insert_insert_eq.
Qed.

Lemma load_whole (A : gmap loc (list FirstLevelItem))
    (D : gmap loc (Document slice)) (a : loc) (v : list FirstLevelItem) :
  load (mkHeap (<[a := v]> A) D) (Some (mkSlice a 0 (length v))) = v.
Proof.
  unfold load. cbn [arrays arr off len]. rewrite lookup_insert_eq. cbn.
  apply firstn_all.
Qed.

(** [make] followed by [copy]: a new array with the elements of the
    source. *)
Lemma copy_into_new (h : Heap) (hd : sliceHdr) :
  valid_slice h (Some hd) →
  copy (make h (len hd)).1 (make h (len hd)).2 (Some hd)
  = mkHeap (<[fresh (dom (arrays h)) := load h (Some hd)]> (arrays h)) (docs h).
Proof.
  intros Hvalid. pose proof (length_load_valid h hd Hvalid) as Hlen.
  destruct Hvalid as (a0 & Ha0 & Hle).
  set (a := fresh (dom (arrays h))).
  assert (Hfresh : arrays h !! a = None) by (apply not_elem_of_dom, is_fresh).
  assert (Hne : a ≠ arr hd) by (intros Heq; rewrite <- Heq in Ha0; congruence).
  unfold make. fold a. cbn [fst snd]. unfold copy. cbn [slice_len len].
  assert (Hsrc : load (mkHeap (<[a := replicate (len hd) zeroItem]> (arrays h))
                              (docs h)) (Some hd) = load h (Some hd)).
  { unfold load. cbn [arrays]. by rewrite lookup_insert_ne. }
  rewrite Hsrc, Nat.min_id, <- Hlen, firstn_all.
  apply store_whole. rewrite length_replicate. lia.
Qed.

Lemma sort_Slice_at_whole (A : gmap loc (list FirstLevelItem))
    (D : gmap loc (Document slice)) (a : loc) (v : list FirstLevelItem) :
  sort_Slice_at (mkHeap (<[a := v]> A) D) (Some (mkSlice a 0 (length v)))
  = mkHeap (<[a := sort_Slice less v]> A) D.
Proof.
  unfold sort_Slice_at. rewrite load_whole. apply store_whole.
  symmetry. apply Permutation_length, sort_Slice_perm.
Qed.

(** A document with items: they are copied into a new array, which is then
    sorted; the new document points to that array. *)
Lemma processDocumentH_items (h : Heap) (doc : loc) (d : Document slice)
    (hd : sliceHdr) :
  docs h !! doc = Some d → Items d = Some hd → valid_slice h (Some hd) →
  let a := fresh (dom (arrays h)) in
  let p := fresh (dom (docs h)) in
  processDocumentH h doc
  = Some (mkHeap (<[a := sort_Slice less (load h (Some hd))]> (arrays h))
                 (<[p := set_Items d (Some (mkSlice a 0 (len hd)))]> (docs h)),
          p).
Proof.
  intros Hd Hit Hvalid a p. pose proof (length_load_valid h hd Hvalid) as Hlen.
  pose proof (copy_into_new h hd Hvalid) as Hcopy.
  unfold processDocumentH. rewrite Hd. cbn [mbind option_bind]. rewrite !Hit.
  destruct (make h (len hd)) as [h1 s] eqn:Hmake. cbn [fst snd] in Hcopy.
  assert (Hs : s = Some (mkSlice a 0 (len hd))) by (by inversion Hmake).
  rewrite Hcopy. cbn [Items set_Items]. rewrite Hs.
  fold a. rewrite <- Hlen, !sort_Slice_at_whole. reflexivity.
Qed.

End heap_facts.

Section heap_claims.

Import model service.

Context `{SortSlice}.

Lemma set_Items_twice {S T U} (d : Document S) (v : T) (w : U) :
  set_Items (set_Items d v) w = set_Items d w.
Proof. by destruct d. Qed.

Lemma processDocument_set_Items {S} (d : Document S) (src : ItemSeq) :
  processDocument (set_Items d src)
  = set_Items d (sort_Slice less <$> src).
Proof. destruct d, src; reflexivity. Qed.

(** C7. [processDocument] leaves the caller's document as it is. It returns
    a pointer to a new document; every document and every array that
    existed before the call is unchanged after it, so the input document
    has the fields and the items, in the order, that it had; the items of
    the new document are in an array that did not exist before (or the
    document has no items, as the input); and the new document is, as a
    value, the processed form of the input. *)
Theorem processDocument_leaves_input (h : Heap) (doc : loc) (d : Document slice) :
  docs h !! doc = Some d → valid_slice h (Items d) →
  ∃ h' p processed,
    processDocumentH h doc = Some (h', p)
    ∧ docs h !! p = None
    ∧ docs h' !! p = Some processed
    ∧ (∀ q d0, docs h !! q = Some d0 → docs h' !! q = Some d0)
    ∧ (∀ a x, arrays h !! a = Some x → arrays h' !! a = Some x)
    ∧ view h' d = view h d
    ∧ match Items d with
      | None => Items processed = None
      | Some hd =>
          ∃ a, Items processed = Some (mkSlice a 0 (len hd))
               ∧ arrays h !! a = None
      end
    ∧ view h' processed = processDocument (view h d).
Proof.
  intros Hd Hvalid.
  assert (Hp : docs h !! fresh (dom (docs h)) = None)
    by (apply not_elem_of_dom, is_fresh).
  assert (Hkeep : ∀ q d0 v, docs h !! q = Some d0 →
                    <[fresh (dom (docs h)) := v]> (docs h) !! q = Some d0).
  { intros q d0 v Hq. rewrite lookup_insert_ne; [done|]. intros Heq.
    rewrite Heq in Hp. congruence. }
  destruct (Items d) as [hd|] eqn:Hit.
  - pose proof (processDocumentH_items h doc d hd Hd Hit Hvalid) as Hrun.
    cbv zeta in Hrun.
    pose proof (length_load_valid h hd Hvalid) as Hlen.
    assert (Ha : arrays h !! fresh (dom (arrays h)) = None)
      by (apply not_elem_of_dom, is_fresh).
    assert (Hother : ∀ a x v, arrays h !! a = Some x →
                       <[fresh (dom (arrays h)) := v]> (arrays h) !! a = Some x).
    { intros a x v Hx. rewrite lookup_insert_ne; [done|]. intros Heq.
      rewrite Heq in Ha. congruence. }
    eexists _, _, _. split; [exact Hrun|]. cbn [docs arrays].
    split; [done|]. split; [apply lookup_insert_eq|].
    split; [intros; by apply Hkeep|]. split; [intros; by apply Hother|].
    split; [|split].
    + unfold view. rewrite Hit. do 2 f_equal. unfold load. cbn [arrays].
      destruct Hvalid as (a0 & Ha0 & _). by rewrite (Hother _ a0), Ha0.
    + cbn. eauto.
    + unfold view. rewrite processDocument_set_Items, set_Items_twice, Hit.
      cbn [Items set_Items fmap option_fmap option_map]. do 2 f_equal.
      rewrite <- Hlen.
      rewrite <- (Permutation_length (sort_Slice_perm _ less (load h (Some hd)))).
      apply load_whole.
  - pose proof (processDocumentH_nil h doc d Hd Hit) as Hrun.
    eexists _, _, _. split; [exact Hrun|]. cbn [docs arrays].
    split; [done|]. split; [apply lookup_insert_eq|].
    split; [intros; by apply Hkeep|]. split; [done|].
    split; [|split].
    + unfold view. by rewrite Hit.
    + done.
    + unfold view. by rewrite processDocument_set_Items, Hit.
Qed.

End heap_claims.


Lemma processDocument_leaves_input_witness :
  ∃ h' p processed,
    service.processDocumentH (H := mergeSortSlice) heap_example 3 = Some (h', p)
    ∧ service.docs heap_example !! p = None
    ∧ service.docs h' !! p = Some processed
    ∧ service.docs h' !! 3%nat = service.docs heap_example !! 3%nat
    ∧ service.arrays h' !! 7%nat = service.arrays heap_example !! 7%nat
    ∧ model.elems (model.Items (service.view h' processed))
      = [item "item-2" 50; item "item-1" 10; item "item-3" 5].
Proof.
  destruct (processDocument_leaves_input (H := mergeSortSlice) heap_example 3
              (model.mkDocument "doc-1" "t" "d" 1 2
                 (Some (service.mkSlice 7 1 3)) "i"))
    as (h' & p & processed & Hrun & Hp & Hnew & Hdocs & Harrs & _ & _ & Hview).
  - reflexivity.
  - eexists. split; [reflexivity | simpl; lia].
  - exists h', p, processed. split; [exact Hrun|]. split; [exact Hp|].
    split; [exact Hnew|]. split; [by apply Hdocs|]. split; [by apply Harrs|].
    rewrite Hview. reflexivity.
Defined.

(* ===================================================================== *)
(** * Further properties                                                  *)
(* ===================================================================== *)

(** ** The cache *)

Section cache_more.

Import cache.

Context `{MapRange}.

Lemma Set_keeps_ttl (seed : nat) (now : time.Time) (id : string)
    (doc : DocPtr) (c : Cache) :
  ttl (Set_ seed now id doc c) = ttl c.
Proof. apply (apply_ttl c (OpSet seed now id doc)). Qed.

Lemma Get_after_Set (seed : nat) (t now1 now2 : time.Time) (id : string)
    (doc : DocPtr) (c : Cache) :
  now1 <= t + ttl c →
  Get now1 now2 id (Set_ seed t id doc c)
  = ((doc, true), Set_ seed t id doc c).
Proof.
  intros Hlive. unfold Get, Get_read. rewrite Set_ttl. cbn [expiresAt document].
  unfold time.After, time.Add.
  by replace (t + ttl c <? now1) with false by (symmetry; apply Z.ltb_ge; lia).
Qed.

(** X1. An entry is found from the moment it is set until its expiry, the
    instant of expiry included: [Get] at a clock reading not later than
    the time of [Set] plus [ttl] returns the document that was set, and
    leaves the cache as it is (reading does not renew the entry). *)
Theorem Set_then_Get_hits (seed : nat) (t now1 now2 : time.Time) (id : string)
    (doc : DocPtr) (c : Cache) :
  now1 <= t + ttl c →
  Get now1 now2 id (Set_ seed t id doc c)
  = ((doc, true), Set_ seed t id doc c).
Proof. apply Get_after_Set. Qed.

(** X2. [Set] on a key that was just set replaces the entry: the key then
    holds the second document with an expiry counted from the second
    [Set], no other key is affected and the number of entries does not
    change. *)
Theorem Set_twice_keeps_last (seed1 seed2 : nat) (t1 t2 : time.Time)
    (id : string) (doc1 doc2 : DocPtr) (c : Cache) :
  let c1 := Set_ seed1 t1 id doc1 c in
  let c2 := Set_ seed2 t2 id doc2 c1 in
  items c2 !! id = Some (mkCacheItem doc2 (time.Add t2 (ttl c)))
  ∧ (∀ key, key ≠ id → items c2 !! key = items c1 !! key)
  ∧ Size c2 = Size c1
  ∧ (∀ now1 now2, now1 <= t2 + ttl c → (Get now1 now2 id c2).1 = (doc2, true)).
Proof.
  intros c1 c2.
  assert (Hres : is_Some (items c1 !! id)) by (unfold c1; rewrite Set_ttl; eauto).
  destruct (Set_resident_key seed2 t2 id doc2 c1 Hres) as (_ & Hother & Hsize).
  assert (Httl : ttl c1 = ttl c) by apply Set_keeps_ttl.
  split; [|split; [|split]].
  - unfold c2. by rewrite Set_ttl, Httl.
  - exact Hother.
  - exact Hsize.
  - intros now1 now2 Hlive. unfold c2.
    rewrite Get_after_Set by (rewrite Httl; lia). done.
Qed.

(** X3. [Delete] removes the entry of its key and nothing else: the key
    is not found afterwards, every other key keeps its entry, the number of
    entries drops by one if the key was resident; on a key that is not
    resident [Delete] changes nothing, and so deleting twice is deleting
    once. *)
Theorem Delete_removes_only_its_key (id : string) (c : Cache) :
  items (Delete id c) !! id = None
  ∧ (∀ now1 now2, Get now1 now2 id (Delete id c) = ((None, false), Delete id c))
  ∧ (∀ key, key ≠ id → items (Delete id c) !! key = items c !! key)
  ∧ (is_Some (items c !! id) → Size (Delete id c) = Size c - 1)
  ∧ (items c !! id = None → Delete id c = c)
  ∧ Delete id (Delete id c) = Delete id c.
Proof.
  assert (Hgone : items (Delete id c) !! id = None) by apply lookup_delete_eq.
  assert (Hnoop : ∀ c0, items c0 !! id = None → Delete id c0 = c0).
  { intros [m t cap ci] Hm. unfold Delete, set_items. cbn in *.
    by rewrite delete_id. }
  split; [done|]. split; [|split; [|split; [|split]]].
  - intros now1 now2. unfold Get, Get_read. by rewrite Hgone.
  - intros key Hne. by apply lookup_delete_ne.
  - intros Hres. unfold Size, len_items, Delete. cbn.
    rewrite map_size_delete_Some by done.
    assert (size (items c) ≠ 0%nat) by (by eapply map_size_ne_0_lookup_2). lia.
  - apply Hnoop.
  - by apply Hnoop.
Qed.

(** X4. [Clear] empties the cache and keeps its configuration: no key is
    found afterwards, the size is 0, and the next [Set] evicts nothing,
    leaving exactly one entry. *)
Theorem Clear_empties (c : Cache) :
  Size (Clear c) = 0
  ∧ ttl (Clear c) = ttl c ∧ capacity (Clear c) = capacity c
  ∧ (∀ now1 now2 id, Get now1 now2 id (Clear c) = ((None, false), Clear c))
  ∧ (∀ seed now id doc,
       items (Set_ seed now id doc (Clear c))
       = {[ id := mkCacheItem doc (time.Add now (ttl c)) ]}).
Proof.
  split; [|split; [done|split; [done|split]]].
  - unfold Size, len_items, Clear. cbn. by rewrite map_size_empty.
  - intros now1 now2 id. unfold Get, Get_read, Clear. cbn.
    by rewrite lookup_empty.
  - intros seed now id doc. unfold Set_, evictRandom.
    destruct (range seed (items (Clear c))) as [|[k v] rest] eqn:Hr.
    + case_match; cbn; by rewrite insert_empty.
    + apply range_head in Hr. unfold Clear in Hr. cbn in Hr.
      by rewrite lookup_empty in Hr.
Qed.

End cache_more.

Section cache_unbounded.

Import cache.

Context `{MapRange}.

Lemma Set_unbounded (seed : nat) (now : time.Time) (id : string)
    (doc : DocPtr) (c : Cache) :
  capacity c <= 0 →
  items (Set_ seed now id doc c)
  = <[id := mkCacheItem doc (time.Add now (ttl c))]> (items c).
Proof.
  intros Hcap. unfold Set_.
  replace (0 <? capacity c) with false by (symmetry; apply Z.ltb_ge; lia).
  by rewrite andb_false_r.
Qed.

Lemma run_unbounded (ops : list Op) (c : Cache) (id : string) :
  capacity c <= 0 → forallb is_OpSet ops = true →
  is_Some (items c !! id) ∨ (∃ seed now doc, OpSet seed now id doc ∈ ops) →
  is_Some (items (run ops c) !! id).
Proof.
  revert c. unfold run.
  induction ops as [|op ops IH]; intros c Hcap Hsets Hid; simpl.
  - destruct Hid as [?|(? & ? & ? & Hin)]; [done|]. by apply elem_of_nil in Hin.
  - simpl in Hsets. apply andb_true_iff in Hsets as [Hop Hsets].
    destruct op as [seed now id' doc| | | |]; try done. cbn [apply].
    apply IH; [by rewrite Set_capacity | done |].
    destruct (decide (id' = id)) as [->|Hne].
    { left. rewrite Set_ttl. eauto. }
    destruct Hid as [Hres|(seed' & now' & doc' & Hin)].
    + left. rewrite Set_unbounded by done. by rewrite lookup_insert_ne.
    + apply elem_of_cons in Hin as [Heq|Hin]; [congruence|]. right. eauto.
Qed.

(** X5. A cache built with a capacity of 0 or less is unbounded: [Set]
    never evicts, so after any sequence of [Set]s every key that was set is
    resident. *)
Theorem unbounded_cache_keeps_every_key (ttl cleanupInterval : time.Duration)
    (capacity : Z) (ops : list Op) (seed : nat) (now : time.Time)
    (id : string) (doc : DocPtr) :
  capacity <= 0 → forallb is_OpSet ops = true →
  OpSet seed now id doc ∈ ops →
  is_Some (items (run ops (New ttl cleanupInterval capacity)) !! id).
Proof.
  intros Hcap Hsets Hin. apply run_unbounded; [done|done|]. right. eauto.
Qed.

Lemma Get_evict_set_items (now : time.Time) (id : string) (c : Cache) :
  Get_evict now id c = set_items c (items (Get_evict now id c)).
Proof. unfold Get_evict. destruct c. repeat case_match; reflexivity. Qed.

Lemma cleanup_sweep_set_items (now : time.Time) (keys : list string) (c : Cache) :
  cleanup_sweep now keys c = set_items c (items (cleanup_sweep now keys c)).
Proof.
  unfold cleanup_sweep. case_match; [|by destruct c]. clear.
  revert c. induction keys as [|key keys IH]; intros c; simpl; [by destruct c|].
  rewrite IH at 1. rewrite (Get_evict_set_items now key c) at 1. reflexivity.
Qed.

(** After [cleanup], a key holds what it held if that was not expired, and
    nothing otherwise. *)
Lemma cleanup_lookup (seed : nat) (now : time.Time) (c : Cache) (id : string) :
  items (cleanup seed now c) !! id = live now (items c !! id).
Proof.
  unfold cleanup. rewrite cleanup_sweep_lookup. case_decide as Hin; [done|].
  destruct (items c !! id) as [item|] eqn:Hi; [|done].
  unfold live, time.After. simpl.
  destruct (expiresAt item <? now) eqn:Hlt; [|done].
  exfalso. apply Hin, cleanup_collect_elem. exists item.
  split; [done | by apply Z.ltb_lt].
Qed.

(** X7. [cleanup] keeps exactly the entries that have not expired, whatever
    the order in which it walks the map; running it again at the same time
    changes nothing. *)
Theorem cleanup_keeps_exactly_live (seed : nat) (now : time.Time) (c : Cache) :
  items (cleanup seed now c)
  = filter (λ kv, now <= expiresAt kv.2) (items c)
  ∧ cleanup seed now c = set_items c (items (cleanup seed now c))
  ∧ Size (cleanup seed now c) <= Size c
  ∧ (∀ seed', cleanup seed' now c = cleanup seed now c)
  ∧ (∀ seed', cleanup seed' now (cleanup seed now c) = cleanup seed now c).
Proof.
  assert (Hfilter : ∀ s c0, items (cleanup s now c0)
                     = filter (λ kv, now <= expiresAt kv.2) (items c0)).
  { intros s c0. apply map_eq. intros id. apply option_eq. intros item.
    rewrite cleanup_lookup, map_lookup_filter_Some. unfold live, time.After.
    destruct (items c0 !! id) as [item'|]; simpl; [|split; [done | by intros [? _]]].
    destruct (expiresAt item' <? now) eqn:Hlt.
    - apply Z.ltb_lt in Hlt. split; [done|]. intros [[= ->] ?]. lia.
    - apply Z.ltb_ge in Hlt. split; [by intros [= ->]|]. by intros [[= ->] ?]. }
  assert (Hrec : ∀ s c0, cleanup s now c0 = set_items c0 (items (cleanup s now c0)))
    by (intros; apply cleanup_sweep_set_items).
  split; [apply Hfilter|]. split; [apply Hrec|]. split; [|split].
  - apply cleanup_sweep_bound.
  - intros seed'. rewrite (Hrec seed'), (Hrec seed), !Hfilter. done.
  - intros seed'. rewrite (Hrec seed'), Hfilter.
    rewrite map_filter_id.
    + by destruct (cleanup seed now c).
    + intros id item Hi. rewrite cleanup_lookup in Hi. unfold live, time.After in Hi.
      destruct (items c !! id) as [item'|]; simpl in Hi; [|done].
      destruct (expiresAt item' <? now) eqn:Hlt; [done|].
      apply Z.ltb_ge in Hlt. by simplify_eq.
Qed.

End cache_unbounded.

(** ** Which entry is evicted *)

(** X6. Eviction takes no account of age or expiry: when [Set] brings a new
    key into a full cache, any resident entry may be the one that goes,
    live or not. *)
Theorem any_resident_entry_may_be_evicted (now : time.Time) (id key : string)
    (doc : cache.DocPtr) (item : cache.cacheItem) (c : cache.Cache) :
  cache.items c !! key = Some item → cache.items c !! id = None →
  0 < cache.capacity c → cache.capacity c <= cache.len_items c →
  ∃ R : MapRange,
    cache.items (cache.Set_ (H := R) 0 now id doc c)
    = <[id := cache.mkCacheItem doc (time.Add now (cache.ttl c))]>
        (delete key (cache.items c)).
Proof.
  intros Hkey Hid Hcap Hfull. exists (frontRange key).
  unfold cache.Set_. rewrite bool_decide_eq_true_2 by done.
  replace (0 <? cache.capacity c) with true by (symmetry; apply Z.ltb_lt; lia).
  replace (cache.capacity c <=? cache.len_items c) with true
    by (symmetry; apply Z.leb_le; lia).
  cbn [andb]. unfold cache.evictRandom. cbn [range frontRange]. rewrite Hkey.
  reflexivity.
Qed.

(** *** On concrete caches *)

Lemma Set_then_Get_hits_witness :
  cache.Get 15 15 "a"
    (cache.Set_ (H := listRange) 0 10 "a" (Some 1%nat) (cache.New 5 60 1))
  = ((Some 1%nat, true),
     cache.Set_ (H := listRange) 0 10 "a" (Some 1%nat) (cache.New 5 60 1)).
Proof.
  apply (Set_then_Get_hits (H := listRange) 0 10 15 15 "a" (Some 1%nat)
           (cache.New 5 60 1)).
  simpl. lia.
Defined.

Lemma unbounded_cache_keeps_every_key_witness :
  is_Some (cache.items
             (cache.run (H := listRange)
                [cache.OpSet 0 1 "a" (Some 1%nat); cache.OpSet 0 2 "b" (Some 2%nat)]
                (cache.New 5 60 0)) !! "a").
Proof.
  apply (unbounded_cache_keeps_every_key (H := listRange) 5 60 0
           [cache.OpSet 0 1 "a" (Some 1%nat); cache.OpSet 0 2 "b" (Some 2%nat)]
           0 1 "a" (Some 1%nat)).
  - lia.
  - reflexivity.
  - left.
Defined.

Lemma any_resident_entry_may_be_evicted_witness :
  ∃ R : MapRange,
    cache.items (cache.Set_ (H := R) 0 21 "c" (Some 3%nat) cache_ab)
    = <["c" := cache.mkCacheItem (Some 3%nat) (time.Add 21 (cache.ttl cache_ab))]>
        (delete "b" (cache.items cache_ab)).
Proof.
  apply (any_resident_entry_may_be_evicted 21 "c" "b" (Some 3%nat)
           (cache.mkCacheItem (Some 2%nat) 25) cache_ab).
  - reflexivity.
  - reflexivity.
  - vm_compute. reflexivity.
  - vm_compute. discriminate.
Defined.

(** ** The parallel processor *)

Section processor_more.

Import model service.

Context `{SortSlice}.
Variable NumCPU : nat.
Variable documents : list Doc.

Lemma step_slots (ev : Event) (s s' : State) :
  step NumCPU documents ev s = Some s' → slots NumCPU s → slots NumCPU s'.
Proof.
  intros Hstep [Hsem Hacc]. destruct s as [p d sm st rl rs].
  unfold slots, in_flight in *. cbn in Hsem, Hacc.
  destruct ev; cbn -[Nat.ltb] in Hstep.
  - destruct p; try done; destruct d; simplify_eq; cbn; (split; [done|]);
      try done; destruct Hacc as [?|[? ?]]; try done; by left.
  - destruct p; cbn in Hstep.
    + case_match; simplify_eq; cbn; (split; [done|]); [done | by left].
    + destruct (documents !! i); [destruct d eqn:Hd|]; simplify_eq; cbn;
        (split; [done|]); try done.
      by destruct Hacc as [?|[? ?]].
    + done.
    + destruct (documents !! i); simplify_eq; cbn. split; [done|].
      rewrite length_app. cbn.
      destruct Hacc as [?|[? ?]]; [left; lia | right; split; [done|lia]].
    + destruct st; destruct rl; simplify_eq; cbn. split; [done|].
      cbn in Hacc. destruct Hacc as [?|[? ?]]; lia.
    + simplify_eq; cbn. done.
    + done.
  - destruct p; try done. destruct (sm <? NumCPU)%nat eqn:Hlt; simplify_eq; cbn.
    apply Nat.ltb_lt in Hlt. split; [lia|]. left. lia.
  - destruct p; try done. destruct d; simplify_eq; cbn. split; [done|]. by right.
  - destruct (st !! k) as [[idx doc]|] eqn:Hk; simplify_eq; cbn.
    split; [done|]. rewrite length_delete by eauto.
    apply lookup_lt_Some in Hk.
    destruct p; cbn in *; try destruct Hacc as [?|[? ?]]; try lia;
      (left; lia) || (right; split; [done|lia]).
  - destruct rl as [|rl]; [done|]. destruct sm as [|sm]; simplify_eq; cbn.
    split; [lia|].
    destruct p; cbn in *; try destruct Hacc as [?|[? ?]]; try lia;
      (left; lia) || (right; split; [done|lia]).
Qed.

Lemma slots_init (cancelled : bool) : slots NumCPU (init cancelled).
Proof. unfold slots, init, in_flight. cbn. split; [lia|done]. Qed.

(** X9. The gate [sem] bounds the work in progress: at every moment of a
    call [sem] holds at most [NumCPU] values; as long as the context is
    not done at most [NumCPU] tasks have been started and not finished, and
    there is never more than one task beyond that. *)
Theorem tasks_in_flight_bounded (cancelled : bool) (evs : list Event)
    (s : State) :
  run NumCPU documents evs (init cancelled) = Some s →
  (sem s ≤ NumCPU)%nat
  ∧ (done s = false → (in_flight s ≤ NumCPU)%nat)
  ∧ (in_flight s ≤ NumCPU + 1)%nat.
Proof.
  intros Hrun.
  assert (Hslots : slots NumCPU s).
  { eapply (run_preserves NumCPU documents (slots NumCPU));
      [apply step_slots | done | apply slots_init]. }
  destruct Hslots as [Hsem Hacc]. split; [done|].
  destruct (pc s), (done s); try destruct Hacc as [?|[? ?]];
    split; try done; try lia; intros; lia.
Qed.

Lemma step_short (ev : Event) (s s' : State) :
  step NumCPU documents ev s = Some s' → short_of_a_slot s → short_of_a_slot s'.
Proof.
  intros Hstep [Hd Hacc]. destruct s as [p d sm st rl rs].
  unfold short_of_a_slot, in_flight in *. cbn in Hd, Hacc. subst d.
  destruct ev; cbn -[Nat.ltb] in Hstep.
  - by destruct p.
  - destruct p; cbn in Hstep; try done.
    + destruct (documents !! i); simplify_eq; cbn; done.
    + destruct (documents !! i); simplify_eq; cbn. split; [done|].
      rewrite length_app. cbn. lia.
    + destruct st; destruct rl; simplify_eq. cbn in Hacc. lia.
  - by destruct p.
  - by destruct p.
  - destruct (st !! k) as [[idx doc]|] eqn:Hk; simplify_eq; cbn.
    split; [done|]. rewrite length_delete by eauto.
    apply lookup_lt_Some in Hk. destruct p; cbn in *; try done; lia.
  - destruct rl as [|rl]; [done|]. destruct sm as [|sm]; simplify_eq; cbn.
    split; [done|]. destruct p; cbn in *; try done; lia.
Qed.

(** X10. When the [select] of the loop takes its [ctx.Done()] branch, the
    [break] that follows leaves only the [select]: the task is started
    without a value in [sem], in the end one task waits at [<-sem] for
    ever, and the call never returns. No schedule in which that branch is
    taken brings the call to its return. *)
Theorem select_done_branch_never_returns (cancelled : bool)
    (evs : list Event) :
  EvSelectDone ∈ evs →
  processDocumentsParallel NumCPU documents cancelled evs = None.
Proof.
  intros Hin. apply list_elem_of_split in Hin as (evs1 & evs2 & ->).
  unfold processDocumentsParallel. rewrite run_app.
  destruct (run NumCPU documents evs1 (init cancelled)) as [s|] eqn:Hrun1;
    [|done]. cbn [mbind option_bind].
  assert (Hslots : slots NumCPU s).
  { eapply (run_preserves NumCPU documents (slots NumCPU));
      [apply step_slots | done | apply slots_init]. }
  cbn [run]. destruct (step NumCPU documents EvSelectDone s) as [s1|] eqn:Hstep;
    [|done]. cbn [mbind option_bind].
  assert (Hshort : short_of_a_slot s1).
  { destruct s as [p d sm st rl rs]. cbn in Hstep.
    destruct p; try done. destruct d; simplify_eq.
    destruct Hslots as [_ Hacc]. unfold short_of_a_slot. cbn in *. done. }
  destruct (run NumCPU documents evs2 s1) as [s2|] eqn:Hrun2; [|done].
  cbn [mbind option_bind].
  assert (Hshort2 : short_of_a_slot s2).
  { eapply (run_preserves NumCPU documents short_of_a_slot);
      [apply step_short | done | done]. }
  destruct Hshort2 as [_ Hpc]. by destruct (pc s2).
Qed.

End processor_more.

Section processor_channel.

Import model service.

Context `{SortSlice}.
Variable NumCPU : nat.
Variable documents : list Doc.

Lemma step_sent_once (ev : Event) (s s' : State) :
  step NumCPU documents ev s = Some s' →
  sent_once documents s → sent_once documents s'.
Proof.
  intros Hstep (Hnd & Hlt & Hle). destruct s as [p d sm st rl rs].
  unfold sent_once in *. cbn in Hnd, Hlt, Hle.
  destruct ev; cbn -[Nat.ltb] in Hstep.
  - destruct p; try done; destruct d; simplify_eq; cbn; done.
  - destruct p; cbn in Hstep, Hlt, Hle.
    + case_bool_decide; simplify_eq; cbn; (split; [done|]); (split; [|lia]);
        intros k Hk; apply Hlt in Hk; lia.
    + destruct (documents !! i); [destruct d|]; simplify_eq; cbn;
        (split; [done|]); (split; [|lia]); try done;
        intros k Hk; apply Hlt in Hk; lia.
    + done.
    + destruct (documents !! i) as [doc|] eqn:Hi; simplify_eq; cbn.
      apply lookup_lt_Some in Hi. rewrite fmap_app, app_assoc. cbn.
      split; [|split; [|lia]].
      * apply NoDup_app. split; [done|]. split; [|apply NoDup_singleton].
        intros k Hk Hki. apply list_elem_of_singleton in Hki as ->.
        apply Hlt in Hk. lia.
      * intros k [Hk|Hk]%elem_of_app; [apply Hlt in Hk; lia|].
        apply list_elem_of_singleton in Hk as ->. lia.
    + destruct st; destruct rl; simplify_eq; cbn. done.
    + simplify_eq; cbn. done.
    + done.
  - destruct p; try done. destruct (sm <? NumCPU)%nat; simplify_eq; cbn. done.
  - destruct p; try done. destruct d; simplify_eq; cbn. done.
  - destruct (st !! k) as [[idx doc]|] eqn:Hk; simplify_eq; cbn.
    assert (Hsub : ∀ rs', rs' = rs ∨ rs' = rs ++ [(idx, processDocument doc)] →
              NoDup (rs'.*1 ++ (delete k st).*1)
              ∧ ∀ x, x ∈ rs'.*1 ++ (delete k st).*1 → x ∈ rs.*1 ++ st.*1).
    { intros rs' [->| ->].
      - assert (Hs : rs.*1 ++ (delete k st).*1 `sublist_of` rs.*1 ++ st.*1).
        { apply sublist_app; [done|]. rewrite list_fmap_delete.
          apply sublist_delete. }
        split; [by eapply sublist_NoDup | intros x Hx; by eapply elem_of_sublist].
      - assert (Hp : (rs ++ [(idx, processDocument doc)]).*1 ++ (delete k st).*1
                     ≡ₚ rs.*1 ++ st.*1).
        { rewrite fmap_app, <- app_assoc. f_equiv. cbn.
          rewrite (delete_Permutation st k (idx, doc)) at 2 by done. done. }
        split; [by rewrite Hp | intros x Hx; by rewrite <- Hp]. }
    destruct (Hsub (if d then rs else rs ++ [(idx, processDocument doc)]))
      as [Hnd' Hin']; [destruct d; auto|].
    split; [done|]. split; [|done]. intros x Hx. apply Hlt. by apply Hin'.
  - destruct rl as [|rl]; [done|]. destruct sm as [|sm]; simplify_eq; cbn. done.
Qed.

Lemma step_well_tagged (ev : Event) (s s' : State) :
  step NumCPU documents ev s = Some s' →
  well_tagged documents s → well_tagged documents s'.
Proof.
  intros Hstep [Hst Hrs]. destruct s as [p d sm st rl rs].
  unfold well_tagged in *. cbn in Hst, Hrs.
  destruct ev; cbn -[Nat.ltb] in Hstep.
  - destruct p; try done; destruct d; simplify_eq; cbn; done.
  - destruct p; cbn in Hstep; repeat case_match; simplify_eq; cbn; try done.
    split; [|done]. intros k d' [Hk|Hk]%elem_of_app; [by apply Hst|].
    apply list_elem_of_singleton in Hk. by simplify_eq.
  - destruct p; try done. destruct (sm <? NumCPU)%nat; simplify_eq; cbn. done.
  - destruct p; try done. destruct d; simplify_eq; cbn. done.
  - destruct (st !! k) as [[idx doc]|] eqn:Hk; simplify_eq; cbn. split.
    + intros k' d' Hin. apply Hst. eapply elem_of_sublist; [done|].
      apply sublist_delete.
    + assert (Hdoc : documents !! idx = Some doc).
      { apply Hst. by eapply list_elem_of_lookup_2. }
      destruct d; [done|]. intros k' d' [Hin|Hin]%elem_of_app; [by apply Hrs|].
      apply list_elem_of_singleton in Hin. simplify_eq. eauto.
  - destruct rl as [|rl]; [done|]. destruct sm as [|sm]; simplify_eq; cbn. done.
Qed.

(** X8. Whatever the schedule, cancelled or not, the channel [results]
    holds at most one result for an index and at most [len(documents)]
    results in all, so that with its buffer of that size the send at line
    188 never blocks; and every result is the processed form of the
    document at its index. *)
Theorem results_channel_never_overflows (cancelled : bool) (evs : list Event)
    (s : State) :
  run NumCPU documents evs (init cancelled) = Some s →
  NoDup (results s).*1
  ∧ (length (results s) ≤ length documents)%nat
  ∧ (∀ k d', (k, d') ∈ results s →
             ∃ d, documents !! k = Some d ∧ d' = processDocument d).
Proof.
  intros Hrun.
  assert (Hso : sent_once documents s).
  { eapply (run_preserves NumCPU documents (sent_once documents));
      [apply step_sent_once | done |].
    unfold sent_once, init. cbn. split; [constructor|].
    split; [|lia]. intros k Hk. by apply elem_of_nil in Hk. }
  assert (Hwt : well_tagged documents s).
  { eapply (run_preserves NumCPU documents (well_tagged documents));
      [apply step_well_tagged | done |].
    unfold well_tagged, init. cbn.
    split; intros ? ? Hin; by apply elem_of_nil in Hin. }
  destruct Hso as (Hnd & Hlt & Hle). apply NoDup_app in Hnd as (Hnd & _ & _).
  split; [done|]. split; [|apply Hwt].
  rewrite <- (length_fmap fst (results s)).
  trans (length (seq 0 (length documents))); [|by rewrite length_seq].
  apply submseteq_length, NoDup_submseteq; [done|].
  intros k Hk. apply elem_of_seq.
  assert (k < next_index documents (pc s))%nat
    by (apply Hlt, elem_of_app; by left).
  lia.
Qed.

End processor_channel.

(** ** [processDocument]: how much of the result is fixed *)

Section sort_keys.

Import model service.

Lemma descending_keys_unique (x y : list FirstLevelItem) :
  descending x → descending y → x ≡ₚ y → Sort <$> x = Sort <$> y.
Proof.
  intros Hx Hy Hperm.
  apply (StronglySorted_unique_strong (λ a b : Z, b <= a)).
  - intros; lia.
  - eapply StronglySorted_fmap; [|exact Hx]. done.
  - eapply StronglySorted_fmap; [|exact Hy]. done.
  - by rewrite Hperm.
Qed.

Lemma descending_unique (x y : list FirstLevelItem) :
  NoDup (Sort <$> x) → descending x → descending y → x ≡ₚ y → x = y.
Proof.
  intros Hnd Hx Hy Hperm.
  apply (StronglySorted_unique_strong (λ a b, Sort b <= Sort a)); try done.
  intros a b Ha Hb Hab Hba. rewrite <- Hperm in Hb.
  assert (Heq : Sort a = Sort b) by lia. clear Hab Hba Hx Hy Hperm.
  induction x as [|c x IH]; [by apply elem_of_nil in Ha|].
  cbn in Hnd. apply NoDup_cons in Hnd as [Hc Hnd].
  apply elem_of_cons in Ha as [->|Ha]; apply elem_of_cons in Hb as [->|Hb];
    try done.
  - exfalso. apply Hc. rewrite Heq. by apply list_elem_of_fmap_2.
  - exfalso. apply Hc. rewrite <- Heq. by apply list_elem_of_fmap_2.
  - by apply IH.
Qed.

Lemma processDocument_unfold `{SortSlice} (doc : Doc) :
  processDocument doc = set_Items doc (sort_Slice less <$> Items doc).
Proof. destruct doc as [? ? ? ? ? [x|] ?]; reflexivity. Qed.

(** X11. What [sort.Slice] leaves open is only the order of items with
    equal [Sort]: whatever implementations of [sort.Slice] are used, the
    processed document shows the same sequence of [Sort] values, processing
    a processed document again does not change that sequence, and when no
    two items of the document share a [Sort] the processed document is the
    same altogether. *)
Theorem processDocument_fixed_up_to_ties (S1 S2 : SortSlice) (doc : Doc) :
  let out1 := processDocument (H := S1) doc in
  let out2 := processDocument (H := S2) doc in
  Sort <$> elems (Items out1) = Sort <$> elems (Items out2)
  ∧ Sort <$> elems (Items (processDocument (H := S2) out1))
    = Sort <$> elems (Items out1)
  ∧ (NoDup (Sort <$> elems (Items doc)) → out1 = out2).
Proof.
  intros out1 out2.
  pose proof (processDocument_spec (H := S1) doc)
    as (_ & _ & _ & _ & _ & _ & _ & Hp1 & Hd1).
  pose proof (processDocument_spec (H := S2) doc)
    as (_ & _ & _ & _ & _ & _ & _ & Hp2 & Hd2).
  pose proof (processDocument_spec (H := S2) out1)
    as (_ & _ & _ & _ & _ & _ & _ & Hp3 & Hd3).
  cbv zeta in *. fold out1 in Hp1, Hd1, Hp3, Hd3. fold out2 in Hp2, Hd2.
  split; [|split].
  - apply descending_keys_unique; [done..|]. by rewrite Hp1, Hp2.
  - by apply descending_keys_unique.
  - intros Hnd.
    assert (Hitems : elems (Items out1) = elems (Items out2)).
    { apply descending_unique; [|done..|by rewrite Hp1, Hp2].
      by rewrite Hp1. }
    unfold out1, out2 in *. rewrite !processDocument_unfold in *.
    destruct doc as [? ? ? ? ? [x|] ?]; cbn in *; [|done]. by rewrite Hitems.
Qed.

End sort_keys.

(** *** On concrete calls *)

Lemma results_channel_never_overflows_witness :
  ∃ s, service.run (H := mergeSortSlice) 2 test_documents
         (both_started ++ [service.EvTask 1]) (service.init false) = Some s
       ∧ (length (service.results s) ≤ length test_documents)%nat.
Proof.
  eexists. split; [vm_compute; reflexivity|].
  refine (proj1 (proj2 (results_channel_never_overflows (H := mergeSortSlice)
                          2 test_documents false
                          (both_started ++ [service.EvTask 1]) _ _))).
  vm_compute. reflexivity.
Defined.

Lemma tasks_in_flight_bounded_witness :
  ∃ s, service.run (H := mergeSortSlice) 2 test_documents both_started
         (service.init false) = Some s
       ∧ in_flight s = 2%nat ∧ (service.sem s ≤ 2)%nat.
Proof.
  eexists. split; [vm_compute; reflexivity|]. split; [reflexivity|].
  refine (proj1 (tasks_in_flight_bounded (H := mergeSortSlice)
                   2 test_documents false both_started _ _)).
  vm_compute. reflexivity.
Defined.

Lemma select_done_branch_never_returns_witness :
  service.processDocumentsParallel (H := mergeSortSlice) 1 [tied_document] false
    cancelled_at_select
  = None.
Proof.
  apply (select_done_branch_never_returns (H := mergeSortSlice) 1
           [tied_document] false).
  repeat constructor.
Defined.

(** ** Pagination: pages as windows *)

Section pagination_more.

Import model.

(** X12. [Validate] settles in one step: validating validated parameters
    changes nothing, and parameters with [Page >= 1] and [PerPage] in
    1..100 are left as they are. *)
Theorem Validate_idempotent (p : PaginationParams) :
  Validate (Validate p) = Validate p
  ∧ (1 <= Page p → 1 <= PerPage p <= 100 → Validate p = p).
Proof.
  assert (Hfix : ∀ q, 1 <= Page q → 1 <= PerPage q <= 100 → Validate q = q).
  { intros [pg pp] Hpg Hpp. unfold Validate. cbn in *.
    replace (pg <? 1) with false by (symmetry; apply Z.ltb_ge; lia). cbn.
    replace (pp <? 1) with false by (symmetry; apply Z.ltb_ge; lia). cbn.
    by replace (100 <? pp) with false by (symmetry; apply Z.ltb_ge; lia). }
  split; [|apply Hfix].
  apply Hfix; rewrite ?Validate_Page, ?Validate_PerPage; repeat case_match; lia.
Qed.

(** X13. The queries for consecutive pages ask for adjacent windows: page 1
    (and any page below 1) starts at offset 0, and as long as no product
    overflows the window of page [n + 1] starts where the window of page
    [n] ends. *)
Theorem pages_are_adjacent_windows (page perPage : Z) :
  let q n := storage.List_query (service.List_params (mkPaginationParams n perPage)) in
  (page <= 1 → storage.Offset (q page) = 0)
  ∧ (1 <= page → page * storage.Limit (q page) <= GoInt.maxInt →
     0 <= storage.Offset (q page)
     ∧ storage.Limit (q (page + 1)) = storage.Limit (q page)
     ∧ storage.Offset (q (page + 1))
       = storage.Offset (q page) + storage.Limit (q page)).
Proof.
  intros q. subst q. unfold service.List_params, storage.List_query.
  cbn [storage.Limit storage.Offset]. rewrite !GetOffset_wrap.
  rewrite !Validate_Page, !Validate_PerPage. cbn [Page PerPage].
  set (pp := if perPage <? 1 then 10
             else if 100 <? perPage then 100 else perPage).
  assert (Hpp : 1 <= pp <= 100) by (subst pp; repeat case_match; lia).
  split.
  - intros Hle.
    assert (Hz : ((if page <? 1 then 1 else page) - 1) * pp = 0)
      by (case_match; nia).
    rewrite Hz. reflexivity.
  - intros Hge Hmax.
    replace (page <? 1) with false by (symmetry; apply Z.ltb_ge; lia).
    replace (page + 1 <? 1) with false by (symmetry; apply Z.ltb_ge; lia).
    unfold GoInt.maxInt in Hmax.
    rewrite !wrap_small
      by (unfold GoInt.inRange, GoInt.minInt, GoInt.maxInt; nia).
    split; [nia|]. split; [done|]. ring.
Qed.

End pagination_more.

Lemma pages_are_adjacent_windows_witness :
  storage.Offset (storage.List_query
                    (service.List_params (model.mkPaginationParams 4 20)))
  = storage.Offset (storage.List_query
                      (service.List_params (model.mkPaginationParams 3 20)))
    + storage.Limit (storage.List_query
                       (service.List_params (model.mkPaginationParams 3 20))).
Proof.
  apply (proj2 (pages_are_adjacent_windows 3 20)).
  - lia.
  - vm_compute. discriminate.
Defined.

(** ** The service: reads through the cache *)

Section service_reads.

Import model service.

Context {St : Type} `{documentStorage St} `{documentStorageRest St}.
Context `{MapRange} `{SortSlice}.

Lemma Get_live (now1 now2 : time.Time) (id : string) (c : cache.Cache)
    (item : cache.cacheItem) :
  cache.items c !! id = Some item → now1 <= cache.expiresAt item →
  cache.Get now1 now2 id c = ((cache.document item, true), c).
Proof.
  intros Hi Hlive. unfold cache.Get, cache.Get_read, time.After. rewrite Hi.
  by replace (cache.expiresAt item <? now1) with false
    by (symmetry; apply Z.ltb_ge; lia).
Qed.

(** A lookup that does not find the key leaves no entry for it, and the
    configuration as it was. *)
Lemma Get_miss (now1 now2 : time.Time) (id : string) (c : cache.Cache) :
  now1 <= now2 → (cache.Get now1 now2 id c).1.2 = false →
  cache.items (cache.Get now1 now2 id c).2 !! id = None
  ∧ cache.ttl (cache.Get now1 now2 id c).2 = cache.ttl c.
Proof.
  intros Hmono. unfold cache.Get, cache.Get_read, time.After.
  destruct (cache.items c !! id) as [item|] eqn:Hi; [|done].
  destruct (cache.expiresAt item <? now1) eqn:Hlt; [|done]. intros _. cbn.
  unfold cache.Get_evict, time.After. rewrite Hi.
  apply Z.ltb_lt in Hlt.
  replace (cache.expiresAt item <? now2) with true
    by (symmetry; apply Z.ltb_lt; lia).
  cbn. split; [apply lookup_delete_eq | done].
Qed.

Lemma Get_absent (now1 now2 : time.Time) (id : string) (c : cache.Cache) :
  cache.items c !! id = None →
  cache.Get now1 now2 id c = ((None, false), c).
Proof. intros Hi. unfold cache.Get, cache.Get_read. by rewrite Hi. Qed.

(** X14. A read that finds a live entry in the cache is answered from the
    cache alone: it returns the processed form of the cached document
    whatever the store holds, and changes neither the cache nor the
    store. *)
Theorem GetByID_hit_skips_store (now1 now2 now3 : time.Time) (seed : nat)
    (id : string) (objs : gmap nat Doc) (s : Service St)
    (item : cache.cacheItem) (p : nat) (d : Doc) :
  cache.items (cache s) !! id = Some item → now1 <= cache.expiresAt item →
  cache.document item = Some p → objs !! p = Some d →
  ∀ st' : St,
    GetByID now1 now2 now3 seed id objs (mkService st' (cache s))
    = (Returns (inr (processDocument d)), objs, mkService st' (cache s)).
Proof.
  intros Hi Hlive Hp Hd st'. unfold GetByID. cbn [cache storage].
  rewrite (Get_live now1 now2 id (cache s) item) by done.
  rewrite Hp. cbn. by rewrite Hd.
Qed.


(** X16. A read that misses the cache and fails in the store returns the
    store's error under "document not found" and caches nothing: no entry
    for the key is left, so the next read asks the store again. *)
Theorem GetByID_failure_not_cached (now1 now2 now3 : time.Time) (seed : nat)
    (id : string) (objs : gmap nat Doc) (s : Service St) (err : error) :
  now1 <= now2 →
  (cache.Get now1 now2 id (cache s)).1.2 = false →
  storage_GetByID (storage s) id = inl err →
  ∃ s',
    GetByID now1 now2 now3 seed id objs s
    = (Returns (inl (wrapErr "document not found" err)), objs, s')
    ∧ storage s' = storage s
    ∧ cache.items (cache s') !! id = None.
Proof.
  intros Hmono Hmiss Hstore.
  destruct (Get_miss now1 now2 id (cache s) Hmono Hmiss) as [Hgone _].
  unfold GetByID.
  destruct (cache.Get now1 now2 id (cache s)) as [[cachedDoc found] c1] eqn:Hget.
  cbn in Hmiss, Hgone. subst found. rewrite Hstore. eauto.
Qed.

(** A read of a key the cache has no entry for is answered by the store. *)
Lemma GetByID_uncached (now1 now2 now3 : time.Time) (seed : nat)
    (id : string) (objs : gmap nat Doc) (s : Service St) :
  cache.items (cache s) !! id = None →
  (GetByID now1 now2 now3 seed id objs s).1.1
  = match storage_GetByID (storage s) id with
    | inl err => Returns (inl (wrapErr "document not found" err))
    | inr doc => Returns (inr (processDocument doc))
    end.
Proof.
  intros Hi. unfold GetByID. rewrite Get_absent by done.
  by destruct (storage_GetByID (storage s) id).
Qed.

(** X17. [Update] and [Delete], when the store accepts them, drop the
    cached entry of the document, so that the next read is answered by the
    store and not by a copy from before the change; when the store refuses
    them the cache is left as it is. *)
Theorem writes_invalidate_cache (now : time.Time) (id : string)
    (req : UpdateDocumentRequest) (s : Service St) :
  (∀ doc s', Update now id req s = (inr doc, s') →
     cache.items (cache s') !! id = None
     ∧ ∀ now1 now2 now3 seed objs,
         (GetByID now1 now2 now3 seed id objs s').1.1
         = match storage_GetByID (storage s') id with
           | inl err => Returns (inl (wrapErr "document not found" err))
           | inr doc => Returns (inr (processDocument doc))
           end)
  ∧ (∀ s', Delete id s = (None, s') →
       cache.items (cache s') !! id = None
       ∧ ∀ now1 now2 now3 seed objs,
           (GetByID now1 now2 now3 seed id objs s').1.1
           = match storage_GetByID (storage s') id with
             | inl err => Returns (inl (wrapErr "document not found" err))
             | inr doc => Returns (inr (processDocument doc))
             end)
  ∧ (∀ err s', Update now id req s = (inl err, s') → s' = s)
  ∧ (∀ err s', Delete id s = (Some err, s') → s' = s).
Proof.
  split; [|split; [|split]].
  - intros doc s'. unfold Update.
    destruct (storage_GetByID (storage s) id) as [?|d]; [done|].
    destruct (storage_Update (storage s) (merge now req d)) as [?|st]; [done|].
    intros [= <- <-]. cbn [cache].
    assert (Hgone : cache.items (cache.Delete id (cache s)) !! id = None)
      by apply lookup_delete_eq.
    split; [done|]. intros. by apply GetByID_uncached.
  - intros s'. unfold Delete.
    destruct (storage_Delete (storage s) id) as [?|st]; [done|].
    intros [= <-]. cbn [cache].
    assert (Hgone : cache.items (cache.Delete id (cache s)) !! id = None)
      by apply lookup_delete_eq.
    split; [done|]. intros. by apply GetByID_uncached.
  - intros err s'. unfold Update. repeat case_match; by intros [= <- <-].
  - intros err s'. unfold Delete. repeat case_match; by intros [= <- <-].
Qed.

End service_reads.

(** ** The service: [List] *)

Section service_list.

Import model service.

Context {St : Type} `{documentStorageRest St} `{SortSlice}.
Variable NumCPU : nat.
Variable totalPages : Z → Z → Z.

Lemma uncancelled_call_returns_documents (documents : list Doc)
    (evs : list Event) (r : Result) :
  EvCancel ∉ evs →
  processDocumentsParallel NumCPU documents false evs = Some r →
  r = Ok (processDocument <$> documents).
Proof.
  intros Hno Hcall.
  apply processDocumentsParallel_Some in Hcall as (s & Hrun & Hpc).
  pose proof (run_inv NumCPU documents false evs s Hrun) as Hinv.
  pose proof (run_done NumCPU documents evs _ s Hrun Hno) as Hd.
  unfold inv in Hinv. by rewrite Hpc, Hd in Hinv.
Qed.

(** X18. [List] asks the store with validated parameters. If the store
    fails, it returns the store's error under "failed to list documents".
    Otherwise, when it returns a page, the page has the documents of the
    store in the store's order, each processed, the store's total, and the
    validated [Page] and [PerPage]; when it returns an error, the error is
    the context's, under "failed to process documents", and the context
    was cancelled; and it never panics. *)
Theorem List_returns_processed_page (cancelled : bool) (schedule : list Event)
    (params : PaginationParams) (s : Service St) :
  match storage_List (storage s) (Validate params) with
  | inl err =>
      List NumCPU totalPages cancelled schedule params s
      = Returns (inl (wrapErr "failed to list documents" err))
  | inr (documents, total) =>
      match List NumCPU totalPages cancelled schedule params s with
      | Returns (inr page) =>
          Documents page = processDocument <$> documents
          ∧ length (Documents page) = length documents
          ∧ Total page = total
          ∧ dl_Page page = Page (Validate params) ∧ 1 <= dl_Page page
          ∧ dl_PerPage page = PerPage (Validate params)
          ∧ 1 <= dl_PerPage page <= 100
          ∧ TotalPages page = totalPages total (dl_PerPage page)
      | Returns (inl err) =>
          err = wrapErr "failed to process documents" ctxErr
          ∧ (cancelled = true ∨ EvCancel ∈ schedule)
      | Panics => False
      | NoReturn =>
          processDocumentsParallel NumCPU documents cancelled schedule = None
      end
  end.
Proof.
  unfold List.
  destruct (storage_List (storage s) (Validate params)) as [err|[documents total]];
    [done|].
  destruct (processDocumentsParallel NumCPU documents cancelled schedule)
    as [r|] eqn:Hcall; [|done].
  destruct (incomplete_unreachable NumCPU documents cancelled schedule r Hcall)
    as [-> | ->].
  - split; [done|]. destruct cancelled; [by left|].
    destruct (decide (EvCancel ∈ schedule)) as [?|Hno]; [by right|].
    by apply uncancelled_call_returns_documents in Hcall.
  - cbn. rewrite length_fmap, Validate_Page, Validate_PerPage.
    repeat split; try done; repeat case_match; lia.
Qed.

End service_list.

(** *** On a concrete service *)

Lemma GetByID_hit_skips_store_witness :
  @service.GetByID _ memStorage listRange mergeSortSlice
    20 20 20 0 "doc-1" objs_doc1 (service.mkService ∅ cache_doc1)
  = (service.Returns (inr (service.processDocument (H := mergeSortSlice) doc_example)),
     objs_doc1, service.mkService ∅ cache_doc1).
Proof.
  apply (@GetByID_hit_skips_store _ memStorage listRange mergeSortSlice 20 20 20 0 "doc-1" objs_doc1
           (service.mkService ∅ cache_doc1)
           (cache.mkCacheItem (Some 0%nat) 60) 0 doc_example).
  - reflexivity.
  - simpl. lia.
  - reflexivity.
  - reflexivity.
Defined.


Lemma GetByID_failure_not_cached_witness :
  ∃ s',
    @service.GetByID _ memStorage listRange mergeSortSlice
      5 5 5 0 "doc-2" ∅ service_doc1
    = (service.Returns (inl (wrapErr "document not found"
                               (storageErr "document not found"))), ∅, s')
    ∧ cache.items (service.cache s') !! "doc-2" = None.
Proof.
  destruct (@GetByID_failure_not_cached _ memStorage listRange mergeSortSlice 5 5 5 0 "doc-2" ∅ service_doc1
              (storageErr "document not found"))
    as (s' & Hrun & _ & Hgone).
  - lia.
  - reflexivity.
  - reflexivity.
  - exists s'. split; assumption.
Defined.

Lemma writes_invalidate_cache_witness :
  let s := service.mkService
             ({["doc-1" := doc_example]} : gmap string service.Doc) cache_doc1 in
  ∃ s', @service.Delete _ memStorageRest "doc-1" s = (None, s')
        ∧ cache.items (service.cache s') !! "doc-1" = None.
Proof.
  intros s. eexists. split; [reflexivity|].
  refine (proj1 (proj1 (proj2
            (@writes_invalidate_cache _ memStorage memStorageRest listRange
               mergeSortSlice 0 "doc-1" req_example s)) _ eq_refl)).
Defined.

(** ** The handlers *)

Section handler_facts.

Import model handler.

Context {Sv : Type} `{documentService Sv}.
Variable Atoi : string → option Z.

(** X19. What a client is told about a failure is fixed by the handler:
    whichever error the service returns, reading a document answers 404
    "document not found", while updating, deleting, creating and listing
    answer 500 with a message of their own, so that updating or deleting a
    document that does not exist is a 500 and not a 404; a request without
    an id is answered 400 and the service is left as it was. *)
Theorem failure_responses_are_fixed (sv sv' : Sv) (r : Request) (e : error) :
  (url_id r ≠ EmptyString → svc_GetByID sv (url_id r) = (inl e, sv') →
   GetDocumentById sv r
   = (mkResponse 404 (DataMap "error" "document not found"), sv'))
  ∧ (∀ req, url_id r ≠ EmptyString → body_update r = Some req →
       svc_Update sv (url_id r) req = (inl e, sv') →
       UpdateDocument sv r
       = (mkResponse 500 (DataMap "error" "failed to update document"), sv'))
  ∧ (url_id r ≠ EmptyString → svc_Delete sv (url_id r) = (Some e, sv') →
     DeleteDocument sv r
     = (mkResponse 500 (DataMap "error" "failed to delete document"), sv'))
  ∧ (∀ req, body_create r = Some req → svc_Create sv req = (inl e, sv') →
       CreateDocument sv r
       = (mkResponse 500 (DataMap "error" "failed to create document"), sv'))
  ∧ (url_id r = EmptyString →
     GetDocumentById sv r
     = (mkResponse 400 (DataMap "error" "document id is required"), sv)
     ∧ UpdateDocument sv r
       = (mkResponse 400 (DataMap "error" "document id is required"), sv)
     ∧ DeleteDocument sv r
       = (mkResponse 400 (DataMap "error" "document id is required"), sv)).
Proof.
  split; [|split; [|split; [|split]]].
  - intros Hid Hsvc. unfold GetDocumentById.
    rewrite bool_decide_eq_false_2 by done. by rewrite Hsvc.
  - intros req Hid Hbody Hsvc. unfold UpdateDocument.
    rewrite bool_decide_eq_false_2 by done. by rewrite Hbody, Hsvc.
  - intros Hid Hsvc. unfold DeleteDocument.
    rewrite bool_decide_eq_false_2 by done. by rewrite Hsvc.
  - intros req Hbody Hsvc. unfold CreateDocument. by rewrite Hbody, Hsvc.
  - intros Hid. unfold GetDocumentById, UpdateDocument, DeleteDocument.
    by rewrite !bool_decide_eq_true_2 by done.
Qed.



End handler_facts.

Lemma failure_responses_are_fixed_witness :
  handler.UpdateDocument (H := downService) tt
    (handler.mkRequest "doc-9" ∅ None (Some req_example))
  = (handler.mkResponse 500 (handler.DataMap "error" "failed to update document"),
     tt).
Proof.
  apply (proj1 (proj2 (failure_responses_are_fixed (H := downService) tt tt
                         (handler.mkRequest "doc-9" ∅ None (Some req_example))
                         (storageErr "down"))) req_example);
    [discriminate | reflexivity | reflexivity].
Defined.

(** ** The goroutine of [startCleanup] *)

Section janitor.

Import cache.

Context `{MapRange}.

Lemma live_later (t1 t2 : time.Time) (o : option cacheItem) :
  t1 <= t2 → live t2 (live t1 o) = live t2 o.
Proof.
  intros Hle. unfold live, time.After. destruct o as [item|]; simpl; [|done].
  destruct (expiresAt item <? t1) eqn:H1; simpl; [|done].
  apply Z.ltb_lt in H1.
  by replace (expiresAt item <? t2) with true by (symmetry; apply Z.ltb_lt; lia).
Qed.

Lemma cleanup_ext (seed1 seed2 : nat) (now : time.Time) (c1 c2 : Cache) :
  (∀ id, items (cleanup seed1 now c1) !! id = items (cleanup seed2 now c2) !! id) →
  ttl c1 = ttl c2 → capacity c1 = capacity c2 →
  cleanupInterval c1 = cleanupInterval c2 →
  cleanup seed1 now c1 = cleanup seed2 now c2.
Proof.
  intros Hitems Httl Hcap Hci.
  unfold cleanup in *.
  rewrite (cleanup_sweep_set_items now _ c1), (cleanup_sweep_set_items now _ c2).
  apply map_eq in Hitems. rewrite Hitems.
  destruct c1, c2; cbn in *. by subst.
Qed.

(** A sweep after a sweep is the later sweep alone. *)
Lemma cleanup_after_cleanup (seed1 seed2 seed3 : nat) (t1 t2 : time.Time)
    (c : Cache) :
  t1 <= t2 →
  cleanup seed2 t2 (cleanup seed1 t1 c) = cleanup seed3 t2 c.
Proof.
  intros Hle. apply cleanup_ext.
  - intros id. by rewrite !cleanup_lookup, live_later.
  - unfold cleanup. rewrite (cleanup_sweep_set_items t1 _ c). done.
  - unfold cleanup. rewrite (cleanup_sweep_set_items t1 _ c). done.
  - unfold cleanup. rewrite (cleanup_sweep_set_items t1 _ c). done.
Qed.

Lemma startCleanup_loop_last (wakeups : list Wakeup) (c : Cache) :
  StronglySorted Z.le (ticks_before_stop wakeups) →
  startCleanup_loop wakeups c
  = match last (ticks_before_stop wakeups) with
    | Some now => cleanup 0 now c
    | None => c
    end.
Proof.
  revert c. induction wakeups as [|[seed now|] rest IH]; intros c Hsorted;
    [done| |done].
  cbn [startCleanup_loop ticks_before_stop] in *.
  apply StronglySorted_inv in Hsorted as [Hsorted Hall].
  rewrite IH by done.
  rewrite last_cons.
  destruct (last (ticks_before_stop rest)) as [t'|] eqn:Hlast.
  - apply cleanup_after_cleanup.
    apply last_Some_elem_of in Hlast.
    rewrite Forall_forall in Hall. by apply Hall.
  - apply cleanup_ext; [|done..]. intros id. by rewrite !cleanup_lookup.
Qed.

(** With a [cleanupInterval] that is not positive the goroutine panics at
    [time.NewTicker], before any sweep. *)
Lemma startCleanup_panics (wakeups : list Wakeup) (c : Cache) :
  cleanupInterval c <= 0 → startCleanup wakeups c = None.
Proof. intros Hci. unfold startCleanup. by rewrite bool_decide_eq_true_2. Qed.

(** X21. The sweeps of [startCleanup] add up to its last one: with a
    positive [cleanupInterval] (otherwise [time.NewTicker] panics) and a
    clock that does not go back, the cache it leaves, after any number of
    ticks and up to the moment it is stopped, is the one a single
    [cleanup] at the time of the last tick would leave; without a tick the
    cache is untouched, and ticks after the stop do nothing. *)
Theorem startCleanup_is_last_sweep (wakeups : list Wakeup) (c : Cache) :
  0 < cleanupInterval c →
  StronglySorted Z.le (ticks_before_stop wakeups) →
  startCleanup wakeups c
  = Some match last (ticks_before_stop wakeups) with
         | Some now => cleanup 0 now c
         | None => c
         end.
Proof.
  intros Hci Hsorted. unfold startCleanup.
  rewrite bool_decide_eq_false_2 by lia.
  by rewrite startCleanup_loop_last.
Qed.

End janitor.

Lemma startCleanup_is_last_sweep_witness :
  cache.startCleanup (H := listRange)
    [cache.Tick 0 15; cache.Tick 1 26; cache.Stopped; cache.Tick 2 99] cache_ab
  = Some (cache.cleanup (H := listRange) 0 26 cache_ab).
Proof.
  apply (startCleanup_is_last_sweep (H := listRange)
           [cache.Tick 0 15; cache.Tick 1 26; cache.Stopped; cache.Tick 2 99]
           cache_ab).
  - vm_compute. reflexivity.
  - repeat constructor; lia.
Defined.

(** ** Progress of [processDocumentsParallel] *)

Section processor_progress.

Import model service.

Context `{SortSlice}.
Variable NumCPU : nat.
Variable documents : list Doc.

Lemma step_balanced (ev : Event) (s s' : State) :
  ev ≠ EvSelectDone →
  step NumCPU documents ev s = Some s' →
  balanced documents s → balanced documents s'.
Proof.
  intros Hev Hstep Hacc. destruct s as [p d sm st rl rs].
  unfold balanced, in_flight in *.
  destruct ev; cbn -[Nat.ltb] in Hstep; [| | |done| |].
  - destruct p; try done; destruct d; by simplify_eq.
  - destruct p; cbn in Hstep, Hacc.
    + case_match; by simplify_eq.
    + destruct (documents !! i) eqn:Hi; [destruct d|]; simplify_eq; cbn;
        done.
    + done.
    + destruct (documents !! i); simplify_eq; cbn.
      rewrite length_app. cbn. lia.
    + destruct st; destruct rl; by simplify_eq.
    + by simplify_eq.
    + done.
  - destruct p; try done. destruct (sm <? NumCPU)%nat; simplify_eq; cbn.
    cbn in Hacc. destruct Hacc as [Hacc ?]. split; [lia|done].
  - destruct (st !! k) as [[idx doc]|] eqn:Hk; simplify_eq; cbn.
    rewrite length_delete by eauto. apply lookup_lt_Some in Hk.
    destruct p; cbn in *; intuition lia.
  - destruct rl as [|rl]; [done|]. destruct sm as [|sm]; simplify_eq; cbn.
    destruct p; cbn in *; intuition lia.
Qed.

Lemma run_balanced (evs : list Event) (s s' : State) :
  EvSelectDone ∉ evs →
  run NumCPU documents evs s = Some s' →
  balanced documents s → balanced documents s'.
Proof.
  revert s. induction evs as [|ev evs IH]; intros s Hnot Hrun Hacc.
  { by simplify_eq/=. }
  cbn in Hrun. destruct (step NumCPU documents ev s) as [s1|] eqn:Hstep; [|done].
  apply not_elem_of_cons in Hnot as [Hev Hnot].
  eapply IH; [done..|]. by eapply step_balanced.
Qed.

(** Every step uses up the bound: no schedule goes on for ever. *)
Lemma step_steps_left (ev : Event) (s s' : State) :
  step NumCPU documents ev s = Some s' →
  (steps_left documents s' < steps_left documents s)%nat.
Proof.
  intros Hstep. destruct s as [p d sm st rl rs]. unfold steps_left.
  destruct ev; cbn -[Nat.ltb Nat.mul Nat.sub] in Hstep.
  - destruct p; try done; destruct d; simplify_eq;
      cbn -[Nat.mul Nat.sub]; lia.
  - destruct p; cbn -[Nat.mul Nat.sub] in Hstep.
    + case_match; simplify_eq; cbn -[Nat.mul Nat.sub]; lia.
    + destruct (documents !! i); [destruct d|]; simplify_eq;
        cbn -[Nat.mul Nat.sub]; lia.
    + done.
    + destruct (documents !! i) eqn:Hi; simplify_eq. cbn -[Nat.mul Nat.sub].
      apply lookup_lt_Some in Hi. rewrite length_app. cbn -[Nat.mul Nat.sub].
      lia.
    + destruct st; destruct rl; simplify_eq. cbn -[Nat.mul Nat.sub]. lia.
    + simplify_eq. cbn -[Nat.mul Nat.sub]. lia.
    + done.
  - destruct p; try done. destruct (sm <? NumCPU)%nat; simplify_eq.
    cbn -[Nat.mul Nat.sub]. lia.
  - destruct p; try done. destruct d; simplify_eq. cbn -[Nat.mul Nat.sub]. lia.
  - destruct (st !! k) as [[idx doc]|] eqn:Hk; simplify_eq.
    cbn -[Nat.mul Nat.sub]. rewrite length_delete by eauto.
    apply lookup_lt_Some in Hk. lia.
  - destruct rl as [|rl]; [done|]. destruct sm as [|sm]; simplify_eq.
    cbn -[Nat.mul Nat.sub]. lia.
Qed.

(** With every task holding its value of [sem], some goroutine of the call
    can always take a step, until the call has returned. *)
Lemma balanced_progress (s : State) :
  (0 < NumCPU)%nat → balanced documents s →
  (∃ r, pc s = Returned r)
  ∨ ∃ ev s', ev ∈ [EvMain; EvSelectSem; EvTask 0; EvRelease]
             ∧ step NumCPU documents ev s = Some s'.
Proof.
  intros Hcpu Hacc. destruct s as [p d sm st rl rs].
  unfold balanced, in_flight in Hacc. cbn in Hacc.
  assert (Htask : (0 < length st + rl)%nat → (length st + rl)%nat = sm →
            ∃ ev s', ev ∈ [EvMain; EvSelectSem; EvTask 0; EvRelease]
              ∧ step NumCPU documents ev (mkState p d sm st rl rs) = Some s').
  { intros Hpos Heq. destruct st as [|[idx doc] st].
    - destruct rl as [|rl]; [cbn in Hpos; lia|]. destruct sm as [|sm]; [done|].
      exists EvRelease. eexists. split; [set_solver|]. reflexivity.
    - exists (EvTask 0). eexists. split; [set_solver|]. reflexivity. }
  destruct p as [|i|i|i| | |r].
  - right. exists EvMain. cbn. case_bool_decide; eexists; (split; [set_solver|]);
      reflexivity.
  - right. exists EvMain. cbn. destruct (documents !! i); [destruct d|];
      eexists; (split; [set_solver|]); reflexivity.
  - right. destruct Hacc as [Hacc _].
    destruct (sm <? NumCPU)%nat eqn:Hlt.
    + exists EvSelectSem. cbn -[Nat.ltb]. rewrite Hlt. eexists.
      split; [set_solver|]. reflexivity.
    + apply Nat.ltb_ge in Hlt. apply Htask; [lia|done].
  - right. destruct Hacc as [_ [doc Hdoc]]. exists EvMain. cbn. rewrite Hdoc.
    eexists. split; [set_solver|]. reflexivity.
  - right. destruct (decide (length st + rl = 0)%nat) as [Hz|Hnz].
    + destruct st; [|done]. destruct rl; [|done]. exists EvMain. cbn.
      eexists. split; [set_solver|]. reflexivity.
    + apply Htask; [lia|done].
  - right. exists EvMain. cbn. eexists. split; [set_solver|]. reflexivity.
  - left. by exists r.
Qed.

Lemma balanced_returns (m : nat) (s : State) :
  (0 < NumCPU)%nat →
  (steps_left documents s ≤ m)%nat → balanced documents s →
  ∃ rest s' r,
    rest ⊆ [EvMain; EvSelectSem; EvTask 0; EvRelease]
    ∧ run NumCPU documents rest s = Some s' ∧ pc s' = Returned r.
Proof.
  intros Hcpu. revert s. induction m as [|m IH]; intros s Hm Hacc.
  - destruct (balanced_progress s Hcpu Hacc) as [[r Hr]|(ev & s' & _ & Hstep)].
    + exists [], s, r. split; [set_solver|done].
    + apply step_steps_left in Hstep. lia.
  - destruct (balanced_progress s Hcpu Hacc) as [[r Hr]|(ev & s1 & Hev & Hstep)].
    + exists [], s, r. split; [set_solver|done].
    + destruct (IH s1) as (rest & s' & r & Hrest & Hrun & Hr).
      * apply step_steps_left in Hstep. lia.
      * eapply step_balanced; [|done..].
        intros ->. revert Hev. rewrite !elem_of_cons, elem_of_nil.
        intuition discriminate.
      * exists (ev :: rest), s', r.
        split; [intros x [->|?]%elem_of_cons; [done | by apply Hrest]|].
        cbn. rewrite Hstep. done.
Qed.

(** X22. A call in which the [ctx.Done()] branch of the [select] is not
    taken cannot get stuck: with at least one CPU, from wherever such a
    schedule has brought it, the goroutines of the call can go on, with
    steps of the loop, of the tasks and of their releases alone, until the
    call returns; and no schedule at all has more than [5 * N + 5] steps
    for [N] documents. *)
Theorem call_without_done_branch_can_return (cancelled : bool)
    (schedule : list Event) (s : State) :
  (0 < NumCPU)%nat →
  EvSelectDone ∉ schedule →
  run NumCPU documents schedule (init cancelled) = Some s →
  (length schedule ≤ 5 * length documents + 5)%nat
  ∧ ∃ rest r,
      rest ⊆ [EvMain; EvSelectSem; EvTask 0; EvRelease]
      ∧ processDocumentsParallel NumCPU documents cancelled (schedule ++ rest)
        = Some r.
Proof.
  intros Hcpu Hnot Hrun. split.
  - assert (Hlen : ∀ evs s0 s1, run NumCPU documents evs s0 = Some s1 →
              (length evs + steps_left documents s1
               ≤ steps_left documents s0)%nat).
    { induction evs as [|ev evs IH]; intros s0 s1 Hr.
      - simplify_eq/=. lia.
      - cbn in Hr. destruct (step NumCPU documents ev s0) as [s2|] eqn:Hstep;
          [|done].
        apply step_steps_left in Hstep. apply IH in Hr. cbn. lia. }
    apply Hlen in Hrun. unfold steps_left at 2, init in Hrun.
    cbn -[Nat.mul] in Hrun. destruct cancelled; lia.
  - assert (Hacc : balanced documents s).
    { eapply run_balanced; [done..|]. by unfold balanced, init, in_flight. }
    destruct (balanced_returns _ s Hcpu (Nat.le_refl _) Hacc)
      as (rest & s' & r & Hrest & Hrun' & Hr).
    exists rest, r. split; [done|].
    unfold processDocumentsParallel. rewrite run_app, Hrun. cbn.
    rewrite Hrun'. cbn. by rewrite Hr.
Qed.

End processor_progress.

Lemma call_without_done_branch_can_return_witness :
  (length both_started ≤ 5 * length test_documents + 5)%nat
  ∧ ∃ rest r,
      rest ⊆ [service.EvMain; service.EvSelectSem; service.EvTask 0;
              service.EvRelease]
      ∧ service.processDocumentsParallel (H := mergeSortSlice) 2 test_documents
          false (both_started ++ rest) = Some r.
Proof.
  refine (call_without_done_branch_can_return (H := mergeSortSlice) 2
            test_documents false both_started _ _ _ eq_refl).
  - lia.
  - apply (bool_decide_unpack _). vm_compute. reflexivity.
Defined.
